(** * CustomSwitchSimulation: the binary heap and the event queue

    A shallow embedding of [src/event_simulation/data_structures/heap.c] and
    [src/event_simulation/event_queue.c], and the properties of the heap and
    of the queue proved over it; with them the test harness [test/test.h],
    the demonstration [test/demo/demo_test.c] and the comparator of the
    heap tests.

    Conventions of the embedding.
    - A C computation is a value of [outcome]: it finishes with a result, or
      it stops on undefined behaviour (an access outside an array, a null
      dereference, a signed overflow), on a failed [assert], or because the
      fuel given to a loop ran out.
    - [unsigned int] is a [Z] reduced modulo 2^32 after each operation,
      [int] a [Z] whose operations are undefined outside [INT_MIN, INT_MAX].
    - A [void *] that points to an object of type [A] is an [option A]:
      [None] is the null pointer, and two pointers are equal when they
      point to equal objects.
    - The array [elems] is the list of its [capacity] slots. *)

From Stdlib Require Import ZArith Lia Bool Sorted Factorial.
From Stdlib Require Import Floats.SpecFloat.
From stdpp Require Import base list.

Local Open Scope Z_scope.

(** ** Outcomes of C computations *)

Inductive fault : Type :=
  | UndefinedBehaviour
  | AssertionFailure
  | FuelExhausted.

Inductive outcome (T : Type) : Type :=
  | Done (t : T)
  | Fault (f : fault).

Arguments Done {T} t.
Arguments Fault {T} f.

Global Instance outcome_ret : MRet outcome := fun T t => Done t.

Global Instance outcome_bind : MBind outcome := fun T U k m =>
  match m with
  | Done t => k t
  | Fault f => Fault f
  end.

(** [assert(c)] *)
Definition assert (c : bool) : outcome unit :=
  if c then Done tt else Fault AssertionFailure.

(** ** Machine integers *)

Definition INT_MAX : Z := 2 ^ 31 - 1.
Definition INT_MIN : Z := - 2 ^ 31.
Definition UINT_MAX : Z := 2 ^ 32 - 1.

(** Conversion to [unsigned int], and the result of unsigned arithmetic. *)
Definition to_uint (z : Z) : Z := z mod 2 ^ 32.

(** Conversion of an [unsigned int] to [int] (two's complement where the
    value does not fit). *)
Definition to_int (z : Z) : Z := (z + 2 ^ 31) mod 2 ^ 32 - 2 ^ 31.

(** The result of an [int] operation: undefined when it overflows. *)
Definition int_arith (z : Z) : outcome Z :=
  if (INT_MIN <=? z) && (z <=? INT_MAX) then Done z
  else Fault UndefinedBehaviour.

(** ** Pointers and arrays *)

Definition ptr (A : Type) : Type := option A.
Definition NULL {A : Type} : ptr A := None.

Definition is_null {A : Type} (p : ptr A) : bool :=
  match p with
  | None => true
  | Some _ => false
  end.

(** [a[i]] read: undefined outside the array. *)
Definition array_get {T : Type} (a : list T) (i : Z) : outcome T :=
  if i <? 0 then Fault UndefinedBehaviour
  else match a !! Z.to_nat i with
       | Some x => Done x
       | None => Fault UndefinedBehaviour
       end.

(** [a[i] = x]: undefined outside the array. *)
Definition array_set {T : Type} (a : list T) (i : Z) (x : T) : outcome (list T) :=
  if (0 <=? i) && (i <? Z.of_nat (length a))
  then Done (<[Z.to_nat i := x]> a)
  else Fault UndefinedBehaviour.

(** ** heap.h *)

Inductive comparison_t : Type :=
  | LESS_THAN
  | GREATER_THAN
  | EQUAL_TO.

Definition comparison_eqb (a b : comparison_t) : bool :=
  match a, b with
  | LESS_THAN, LESS_THAN => true
  | GREATER_THAN, GREATER_THAN => true
  | EQUAL_TO, EQUAL_TO => true
  | _, _ => false
  end.

(** [func_comparator_t]: left element, right element, context argument. *)
Definition func_comparator_t (A C : Type) : Type :=
  ptr A -> ptr A -> ptr C -> outcome comparison_t.

(** A parameter for which a call passes no argument holds an indeterminate
    value. The embedding gives it the pointer to no object: a callee that
    never reads the parameter runs as in the source, and a callee that
    reads an object through it is undefined. *)
Definition no_argument {T : Type} : ptr T := NULL.

(** [heap->comparator(x, y)], the call as heap.c writes it at each of its
    four places, for a comparator of the type [func_comparator_t]: the
    third parameter receives no argument. [struct binary_heap] has no
    field for a context. *)
Definition comparator_call {A C : Type} (comparator : func_comparator_t A C)
    : ptr A -> ptr A -> outcome comparison_t :=
  fun x y => comparator x y no_argument.

(** ** heap.c *)

Definition DEFAULT_ARR_CAPACITY : Z := 16.

(** [struct binary_heap]. The fields [comparator] and [free_elem] are
    assigned by [create_empty_heap] only; they are the variables of the
    section below. *)
Record binary_heap (A : Type) : Type := {
  elems : list (ptr A);
  size : Z;
  capacity : Z
}.

Arguments elems {A} _.
Arguments size {A} _.
Arguments capacity {A} _.

Definition binary_heap_get_parent_index (index : Z) : outcome Z :=
  d ← int_arith (index - 1);
  int_arith (d ÷ 2).

Definition binary_heap_get_left_child_index (index : Z) : outcome Z :=
  m ← int_arith (2 * index);
  int_arith (m + 1).

Definition binary_heap_get_right_child_index (index : Z) : outcome Z :=
  m ← int_arith (2 * index);
  int_arith (m + 2).

(** A local variable of the sift-down loop that is assigned on one branch
    only: [None] while it is not initialised. *)
Definition read_local {T : Type} (v : option T) : outcome T :=
  match v with
  | Some x => Done x
  | None => Fault UndefinedBehaviour
  end.

Section Heap.
Context {A : Type}.

(** [heap->comparator(x, y)], as heap.c calls it: with the two elements. *)
Variable comparator : ptr A -> ptr A -> outcome comparison_t.

(** A slot of a fresh allocation holds no element yet; the model fills it
    with [NULL]. No operation reads a slot at or beyond [size]. *)
Definition create_empty_heap : binary_heap A :=
  {| elems := replicate (Z.to_nat DEFAULT_ARR_CAPACITY) NULL;
     size := 0;
     capacity := DEFAULT_ARR_CAPACITY |}.

Definition binary_heap_size (heap : binary_heap A) : Z := size heap.

(** The loop of [binary_heap_bubble_last_element]; its state is the array
    and the two indices. *)
Fixpoint bubble_loop (fuel : nat) (es : list (ptr A))
    (elem_index parent_index : Z) : outcome (list (ptr A)) :=
  match fuel with
  | O => Fault FuelExhausted
  | S fuel' =>
    if elem_index =? 0 then Done es
    else
      x ← array_get es elem_index;
      p ← array_get es parent_index;
      c ← comparator x p;
      if comparison_eqb c LESS_THAN then
        temp ← array_get es elem_index;
        pv ← array_get es parent_index;
        es1 ← array_set es elem_index pv;
        es2 ← array_set es1 parent_index temp;
        let elem_index' := parent_index in
        parent_index' ← binary_heap_get_parent_index elem_index';
        _ ← assert ((elem_index' =? 0) || negb (parent_index' =? -1));
        bubble_loop fuel' es2 elem_index' parent_index'
      else Done es
  end.

Definition binary_heap_bubble_last_element (heap : binary_heap A)
    : outcome (binary_heap A) :=
  let elem_index := to_int (to_uint (size heap - 1)) in
  parent_index ← binary_heap_get_parent_index elem_index;
  _ ← assert ((elem_index =? 0) || negb (parent_index =? -1));
  es ← bubble_loop (S (Z.to_nat (size heap))) (elems heap)
         elem_index parent_index;
  Done {| elems := es; size := size heap; capacity := capacity heap |}.

(** [realloc] keeps the old slots and, as [create_empty_heap], the new
    ones are modelled as [NULL]. *)
Definition binary_heap_insert (heap : binary_heap A) (elem : ptr A)
    : outcome (Z * binary_heap A) :=
  _ ← assert (size heap <=? capacity heap);
  let heap1 :=
    if size heap =? capacity heap then
      let capacity' := to_uint (2 * capacity heap) in
      {| elems := resize (Z.to_nat capacity') NULL (elems heap);
         size := size heap;
         capacity := capacity' |}
    else heap in
  es ← array_set (elems heap1) (size heap1) elem;
  let heap2 :=
    {| elems := es;
       size := to_uint (size heap1 + 1);
       capacity := capacity heap1 |} in
  heap3 ← binary_heap_bubble_last_element heap2;
  Done (1, heap3).

Definition binary_heap_min (heap : binary_heap A) : outcome (ptr A) :=
  if size heap =? 0 then Done NULL
  else array_get (elems heap) 0.

(** The state of the sift-down loop of [binary_heap_pop_min]. *)
Record sift_state : Type := {
  st_elems : list (ptr A);
  st_index : Z;
  st_left_index : Z;
  st_right_index : Z;
  st_smaller_than_children : bool
}.

Definition sift_condition (sz : Z) (st : sift_state) : bool :=
  ((to_uint (st_left_index st) <? sz) || (to_uint (st_right_index st) <? sz))
  && st_smaller_than_children st.

(** The flags [(swap_left, swap_right)] the body of the loop decides. *)
Definition sift_decide (es : list (ptr A)) (left_index right_index : Z)
    (left_present right_present : bool)
    (left_compare right_compare : option comparison_t)
    : outcome (bool * bool) :=
  if left_present && right_present then
    lc ← read_local left_compare;
    rc ← read_local right_compare;
    if comparison_eqb lc GREATER_THAN && comparison_eqb rc GREATER_THAN then
      l ← array_get es left_index;
      r ← array_get es right_index;
      child_compare ← comparator l r;
      if comparison_eqb child_compare LESS_THAN
         || comparison_eqb child_compare EQUAL_TO
      then Done (true, false)
      else Done (false, true)
    else if comparison_eqb lc GREATER_THAN then Done (true, false)
    else if comparison_eqb rc GREATER_THAN then Done (false, true)
    else Done (false, false)
  else
    only_left ←
      (if left_present
       then lc ← read_local left_compare;
            Done (comparison_eqb lc GREATER_THAN)
       else Done false);
    if (only_left : bool) then Done (true, false)
    else
      only_right ←
        (if right_present
         then rc ← read_local right_compare;
              Done (comparison_eqb rc GREATER_THAN)
         else Done false);
      if (only_right : bool) then Done (false, true)
      else Done (false, false).

Definition swap_elems (es : list (ptr A)) (index child_index : Z)
    : outcome (list (ptr A)) :=
  temp ← array_get es index;
  c ← array_get es child_index;
  es1 ← array_set es index c;
  array_set es1 child_index temp.

(** One iteration of the loop. *)
Definition sift_body (sz : Z) (st : sift_state) : outcome sift_state :=
  let es := st_elems st in
  let index := st_index st in
  let left_index := st_left_index st in
  let right_index := st_right_index st in
  let left_present := to_uint left_index <? sz in
  let right_present := to_uint right_index <? sz in
  left_compare ←
    (if left_present
     then x ← array_get es index;
          l ← array_get es left_index;
          c ← comparator x l;
          Done (Some c)
     else Done None);
  right_compare ←
    (if right_present
     then x ← array_get es index;
          r ← array_get es right_index;
          c ← comparator x r;
          Done (Some c)
     else Done None);
  flags ←
    sift_decide es left_index right_index left_present right_present
      left_compare right_compare;
  let swap_left : bool := fst flags in
  let swap_right : bool := snd flags in
  moved ←
    (if swap_left then
       es1 ← swap_elems es index left_index;
       Done (es1, left_index, true)
     else if swap_right then
       es1 ← swap_elems es index right_index;
       Done (es1, right_index, true)
     else Done (es, index, false));
  let index' := snd (fst moved) in
  left_index' ← binary_heap_get_left_child_index index';
  right_index' ← binary_heap_get_right_child_index index';
  Done {| st_elems := fst (fst moved);
          st_index := index';
          st_left_index := left_index';
          st_right_index := right_index';
          st_smaller_than_children := snd moved |}.

Fixpoint sift_loop (fuel : nat) (sz : Z) (st : sift_state)
    : outcome sift_state :=
  match fuel with
  | O => Fault FuelExhausted
  | S fuel' =>
    if sift_condition sz st then
      st' ← sift_body sz st;
      sift_loop fuel' sz st'
    else Done st
  end.

Definition binary_heap_pop_min (heap : binary_heap A)
    : outcome (ptr A * binary_heap A) :=
  min_val ← binary_heap_min heap;
  if is_null min_val then Done (NULL, heap)
  else
    last ← array_get (elems heap) (to_uint (size heap - 1));
    es1 ← array_set (elems heap) 0 last;
    es2 ← array_set es1 (to_uint (size heap - 1)) NULL;
    let size' := to_uint (size heap - 1) in
    let index := 0 in
    left_index ← binary_heap_get_left_child_index index;
    right_index ← binary_heap_get_right_child_index index;
    st ← sift_loop (S (S (Z.to_nat size'))) size'
           {| st_elems := es2;
              st_index := index;
              st_left_index := left_index;
              st_right_index := right_index;
              st_smaller_than_children := true |};
    Done (min_val,
          {| elems := st_elems st; size := size'; capacity := capacity heap |}).

(** [free_heap]: the destructor is external; what [free_heap] does is the
    sequence of its calls [heap->free_elem(heap->elems[i])], each recorded
    by the list of the arguments it passes. *)
Fixpoint free_loop (fuel : nat) (heap : binary_heap A) (i : Z)
    : outcome (list (list (ptr A))) :=
  match fuel with
  | O => Fault FuelExhausted
  | S fuel' =>
    if to_uint i <? size heap then
      e ← array_get (elems heap) i;
      _ ← assert (negb (is_null e));
      i' ← int_arith (i + 1);
      calls ← free_loop fuel' heap i';
      Done ([e] :: calls)
    else Done []
  end.

Definition free_heap (heap : binary_heap A) : outcome (list (list (ptr A))) :=
  free_loop (S (Z.to_nat (size heap))) heap 0.

End Heap.


(** ** Callers of the heap: sequences of operations *)

Inductive heap_op (A : Type) : Type :=
  | OpInsert (elem : ptr A)
  | OpPopMin.

Arguments OpInsert {A} elem.
Arguments OpPopMin {A}.

Section HeapCallers.
Context {A : Type}.
Variable comparator : ptr A -> ptr A -> outcome comparison_t.

(** The operations of [ops] in turn; the result lists what the pops
    returned. *)
Fixpoint run_ops (ops : list (heap_op A)) (heap : binary_heap A)
    : outcome (list (ptr A) * binary_heap A) :=
  match ops with
  | [] => Done ([], heap)
  | OpInsert elem :: ops' =>
    r ← binary_heap_insert comparator heap elem;
    run_ops ops' (snd r)
  | OpPopMin :: ops' =>
    r ← binary_heap_pop_min comparator heap;
    rest ← run_ops ops' (snd r);
    Done (fst r :: fst rest, snd rest)
  end.

(** The elements [ops] inserts. *)
Fixpoint inserted (ops : list (heap_op A)) : list (ptr A) :=
  match ops with
  | [] => []
  | OpInsert elem :: ops' => elem :: inserted ops'
  | OpPopMin :: ops' => inserted ops'
  end.

Fixpoint insert_all (l : list (ptr A)) (heap : binary_heap A)
    : outcome (binary_heap A) :=
  match l with
  | [] => Done heap
  | elem :: l' =>
    r ← binary_heap_insert comparator heap elem;
    insert_all l' (snd r)
  end.

Fixpoint pop_n (k : nat) (heap : binary_heap A)
    : outcome (list (ptr A) * binary_heap A) :=
  match k with
  | O => Done ([], heap)
  | S k' =>
    r ← binary_heap_pop_min comparator heap;
    rest ← pop_n k' (snd r);
    Done (fst r :: fst rest, snd rest)
  end.

(** [while (binary_heap_size(heap) != 0) binary_heap_pop_min(heap);] *)
Fixpoint pop_until_empty (fuel : nat) (heap : binary_heap A)
    : outcome (list (ptr A)) :=
  match fuel with
  | O => Fault FuelExhausted
  | S fuel' =>
    if binary_heap_size heap =? 0 then Done []
    else
      r ← binary_heap_pop_min comparator heap;
      rest ← pop_until_empty fuel' (snd r);
      Done (fst r :: rest)
  end.

End HeapCallers.

(** [free_heap] with the destructor of the heap run at each of its calls
    ([free_heap] above lists the calls and leaves the destructor out). *)
Section HeapDestructor.
Context {A : Type}.
Variable free_elem : ptr A -> outcome unit.

Fixpoint free_loop_with (fuel : nat) (heap : binary_heap A) (i : Z)
    : outcome unit :=
  match fuel with
  | O => Fault FuelExhausted
  | S fuel' =>
    if to_uint i <? size heap then
      e ← array_get (elems heap) i;
      _ ← assert (negb (is_null e));
      _ ← free_elem e;
      i' ← int_arith (i + 1);
      free_loop_with fuel' heap i'
    else Done tt
  end.

Definition free_heap_with (heap : binary_heap A) : outcome unit :=
  free_loop_with (S (Z.to_nat (size heap))) heap 0.

End HeapDestructor.

(** ** event_queue.c *)

Definition deref {T : Type} (p : ptr T) : outcome T :=
  match p with
  | Some x => Done x
  | None => Fault UndefinedBehaviour
  end.

(** [func_free_t]: the object to free and the context argument. *)
Definition func_free_t (X C : Type) : Type := ptr X -> ptr C -> outcome unit.

(** [heap->free_elem(x)], the call as heap.c writes it in [free_heap], for
    a destructor of the type [func_free_t]: the second parameter receives
    no argument. *)
Definition free_elem_call {X C : Type} (free_elem : func_free_t X C)
    : ptr X -> outcome unit :=
  fun x => free_elem x no_argument.

Record event (D T : Type) : Type := {
  data : ptr D;
  time : ptr T
}.

Arguments data {D T} _.
Arguments time {D T} _.

Record event_queue (D T C : Type) : Type := {
  heap : binary_heap (event D T);
  time_comparator : func_comparator_t T C;
  free_data : func_free_t D C;
  free_time : func_free_t T C;
  free_data_arg : ptr C;
  free_time_arg : ptr C
}.

Arguments heap {D T C} _.
Arguments time_comparator {D T C} _.
Arguments free_data {D T C} _.
Arguments free_time {D T C} _.
Arguments free_data_arg {D T C} _.
Arguments free_time_arg {D T C} _.

Record uint_time : Type := { ut_time : Z }.
Record double_time : Type := { dt_time : spec_float }.

Section EventQueue.
Context {D T C : Type}.

Definition event_comparator (lhs rhs : ptr (event D T))
    (queue_ptr : ptr (event_queue D T C)) : outcome comparison_t :=
  queue ← deref queue_ptr;
  event_l ← deref lhs;
  event_r ← deref rhs;
  time_comparator queue (time event_l) (time event_r) NULL.

Definition event_free (event_ptr : ptr (event D T))
    (queue_ptr : ptr (event_queue D T C)) : outcome unit :=
  queue ← deref queue_ptr;
  ev ← deref event_ptr;
  _ ← free_data queue (data ev) (free_data_arg queue);
  free_time queue (time ev) (free_time_arg queue).

(** [create_empty_heap(event_comparator, event_free)] gives the heap its
    comparator and its destructor. The calls
    [binary_heap_set_comparator_arg(queue->heap, queue)] and
    [binary_heap_set_free_arg(queue->heap, queue)] name functions that
    heap.h declares and no file of [src] defines; [struct binary_heap] has
    no field they could set, and they change nothing here. *)
Definition create_generic_event_queue
    (time_comparator : func_comparator_t T C)
    (free_data : func_free_t D C) (free_time : func_free_t T C)
    (free_data_arg free_time_arg : ptr C) : event_queue D T C :=
  {| heap := create_empty_heap;
     time_comparator := time_comparator;
     free_data := free_data;
     free_time := free_time;
     free_data_arg := free_data_arg;
     free_time_arg := free_time_arg |}.

Definition with_heap (queue : event_queue D T C)
    (h : binary_heap (event D T)) : event_queue D T C :=
  {| heap := h;
     time_comparator := time_comparator queue;
     free_data := free_data queue;
     free_time := free_time queue;
     free_data_arg := free_data_arg queue;
     free_time_arg := free_time_arg queue |}.

Definition event_queue_enqueue (queue : event_queue D T C)
    (elem : ptr D) (time : ptr T) : outcome (Z * event_queue D T C) :=
  _ ← assert (negb (is_null time));
  let ev := Some {| data := elem; time := time |} in
  r ← binary_heap_insert (comparator_call event_comparator) (heap queue) ev;
  Done (fst r, with_heap queue (snd r)).

Definition event_queue_size (queue : event_queue D T C) : Z :=
  binary_heap_size (heap queue).

Definition event_queue_peek (queue : event_queue D T C)
    : outcome (ptr D * ptr T) :=
  event_ptr ← binary_heap_min (heap queue);
  ev ← deref event_ptr;
  Done (data ev, time ev).

Definition event_queue_dequeue (queue : event_queue D T C)
    : outcome (ptr D * ptr T * event_queue D T C) :=
  r ← binary_heap_pop_min (comparator_call event_comparator) (heap queue);
  event_popped ← deref (fst r);
  Done (data event_popped, time event_popped, with_heap queue (snd r)).

(** [free_event_queue]: [free_heap] on the heap of the queue, whose
    destructor is [event_free]. *)
Definition free_event_queue (queue : event_queue D T C) : outcome unit :=
  free_heap_with (free_elem_call event_free) (heap queue).

(** Enqueue the pairs of [l] in turn. *)
Fixpoint enqueue_all (l : list (ptr D * ptr T)) (queue : event_queue D T C)
    : outcome (event_queue D T C) :=
  match l with
  | [] => Done queue
  | (elem, time) :: l' =>
    r ← event_queue_enqueue queue elem time;
    enqueue_all l' (snd r)
  end.

(** [while (event_queue_size(queue) != 0) event_queue_dequeue(queue, ...);]
    the result lists the pairs the dequeues gave. *)
Fixpoint dequeue_until_empty (fuel : nat) (queue : event_queue D T C)
    : outcome (list (ptr D * ptr T)) :=
  match fuel with
  | O => Fault FuelExhausted
  | S fuel' =>
    if event_queue_size queue =? 0 then Done []
    else
      r ← event_queue_dequeue queue;
      rest ← dequeue_until_empty fuel' (snd r);
      Done (fst r :: rest)
  end.

End EventQueue.

(** *** The built-in time representations *)

Section BuiltinTime.
Context {D C : Type}.

Definition create_uint_time (time_val : Z) : ptr uint_time :=
  Some {| ut_time := time_val |}.

Definition free_uint_time (time_ptr : ptr uint_time) (arg : ptr C)
    : outcome unit := Done tt.

Definition uint_time_comparator (lhs rhs : ptr uint_time) (arg : ptr C)
    : outcome comparison_t :=
  time_l ← deref lhs;
  time_r ← deref rhs;
  if ut_time time_l <? ut_time time_r then Done LESS_THAN
  else if ut_time time_l >? ut_time time_r then Done GREATER_THAN
  else Done EQUAL_TO.

Definition create_double_time (time_val : spec_float) : ptr double_time :=
  Some {| dt_time := time_val |}.

Definition free_double_time (time_ptr : ptr double_time) (arg : ptr C)
    : outcome unit := Done tt.

(** [a < b] and [a > b] on doubles: false when an operand is a NaN. *)
Definition double_lt (a b : spec_float) : bool := SFltb a b.
Definition double_gt (a b : spec_float) : bool := SFltb b a.

Definition double_time_comparator (lhs rhs : ptr double_time) (arg : ptr C)
    : outcome comparison_t :=
  time_l ← deref lhs;
  time_r ← deref rhs;
  if double_lt (dt_time time_l) (dt_time time_r) then Done LESS_THAN
  else if double_gt (dt_time time_l) (dt_time time_r) then Done GREATER_THAN
  else Done EQUAL_TO.

Definition create_queue_uint_time (free_data : func_free_t D C)
    (free_data_arg : ptr C) : event_queue D uint_time C :=
  create_generic_event_queue uint_time_comparator free_data free_uint_time
    free_data_arg NULL.

Definition create_queue_double_time (free_data : func_free_t D C)
    (free_data_arg : ptr C) : event_queue D double_time C :=
  create_generic_event_queue double_time_comparator free_data free_double_time
    free_data_arg NULL.

Definition event_queue_enqueue_uint_time (queue : event_queue D uint_time C)
    (elem : ptr D) (time_val : Z) : outcome (event_queue D uint_time C) :=
  let time := create_uint_time time_val in
  r ← event_queue_enqueue queue elem time;
  Done (snd r).

Definition event_queue_enqueue_double_time
    (queue : event_queue D double_time C)
    (elem : ptr D) (time_val : spec_float)
    : outcome (event_queue D double_time C) :=
  let time := create_double_time time_val in
  r ← event_queue_enqueue queue elem time;
  Done (snd r).

Definition event_queue_peek_uint_time (queue : event_queue D uint_time C)
    : outcome (Z * ptr D) :=
  event_ptr ← binary_heap_min (heap queue);
  ev ← deref event_ptr;
  time ← deref (time ev);
  Done (ut_time time, data ev).

Definition event_queue_peek_double_time (queue : event_queue D double_time C)
    : outcome (spec_float * ptr D) :=
  event_ptr ← binary_heap_min (heap queue);
  ev ← deref event_ptr;
  time ← deref (time ev);
  Done (dt_time time, data ev).

Definition event_queue_dequeue_uint_time (queue : event_queue D uint_time C)
    : outcome (Z * ptr D * event_queue D uint_time C) :=
  r ← event_queue_dequeue queue;
  let '(elem_out, time_ptr, queue') := r in
  time ← deref time_ptr;
  let time_val := ut_time time in
  Done (time_val, elem_out, queue').

(** Conversion of a double to [unsigned int]: the fractional part is
    discarded, and the conversion is undefined when the integral part is
    not a value of the type. *)
Definition double_to_uint (f : spec_float) : outcome Z :=
  match f with
  | S754_zero _ => Done 0
  | S754_finite s m e =>
    let magnitude :=
      match e with
      | Z0 => Zpos m
      | Zpos p => Zpos m * 2 ^ Zpos p
      | Zneg p => Zpos m / 2 ^ Zpos p
      end in
    let integral := if s then - magnitude else magnitude in
    if (0 <=? integral) && (integral <=? UINT_MAX) then Done integral
    else Fault UndefinedBehaviour
  | S754_infinity _ => Fault UndefinedBehaviour
  | S754_nan => Fault UndefinedBehaviour
  end.

(** Conversion of an [unsigned int] to double: exact, the type has 53 bits
    of precision. *)
Definition uint_to_double (z : Z) : spec_float :=
  binary_normalize 53 1024 z 0 false.

(** The local [time_val] of [event_queue_dequeue_double_time] is declared
    [unsigned int]: the double read from the time structure is converted to
    it, and converted back by the [return]. *)
Definition event_queue_dequeue_double_time
    (queue : event_queue D double_time C)
    : outcome (spec_float * ptr D * event_queue D double_time C) :=
  r ← event_queue_dequeue queue;
  let '(elem_out, time_ptr, queue') := r in
  time ← deref time_ptr;
  time_val ← double_to_uint (dt_time time);
  Done (uint_to_double time_val, elem_out, queue').

End BuiltinTime.

(** ** test/event_simulation/data_structures/heap_test.c *)

Record node : Type := { value : Z }.

Definition make_node (value : Z) : ptr node := Some {| value := value |}.

(** The test's [comparator]; it does not read its context argument. *)
Definition node_comparator {C : Type} (lhs rhs : ptr node) (arg : ptr C)
    : outcome comparison_t :=
  node_l ← deref lhs;
  node_r ← deref rhs;
  if value node_l <? value node_r then Done LESS_THAN
  else if value node_l >? value node_r then Done GREATER_THAN
  else Done EQUAL_TO.

(** The comparison a heap created with it makes of two elements. *)
Definition node_order (lhs rhs : ptr node) : outcome comparison_t :=
  node_comparator (C := unit) lhs rhs NULL.

Definition is_node (p : ptr node) : Prop := p <> NULL.

(** A comparator a caller may supply that accepts null elements: [NULL]
    comes before every node, and nodes compare by value. *)
Definition null_first_order (lhs rhs : ptr node) : outcome comparison_t :=
  match lhs, rhs with
  | None, None => Done EQUAL_TO
  | None, Some _ => Done LESS_THAN
  | Some _, None => Done GREATER_THAN
  | Some node_l, Some node_r =>
    if value node_l <? value node_r then Done LESS_THAN
    else if value node_l >? value node_r then Done GREATER_THAN
    else Done EQUAL_TO
  end.

Definition any_ptr (p : ptr node) : Prop := True.

(** The heap after [NULL] and the node 1 are inserted, in this order. *)
Definition heap_null_root : binary_heap node :=
  {| elems := NULL :: make_node 1 :: replicate 14 NULL;
     size := 2;
     capacity := 16 |}.

(** ** test/test.h

    What the harness and the tests print is left out: a test is the
    result it returns. *)

Inductive test_result_t : Type :=
  | FAIL
  | PASS.

(** The value of the enumeration constant: [FAIL = 0], [PASS] the next. *)
Definition test_result_value (r : test_result_t) : Z :=
  match r with
  | FAIL => 0
  | PASS => 1
  end.

(** A test function, [test_result_t name()]. *)
Definition func_test_t : Type := unit -> outcome test_result_t.

(** [ASSERT_EQ(expected, val)], followed by the rest of the test. *)
Definition ASSERT_EQ (expected val : Z) (rest : outcome test_result_t)
    : outcome test_result_t :=
  if negb (expected =? val) then Done FAIL else rest.

(** [END_TEST] *)
Definition END_TEST : outcome test_result_t := Done PASS.

(** The loop of the [main] that [REGISTER_TESTS] defines, over the array
    [test_funcs] that a null pointer ends. *)
Fixpoint tests_loop (fuel : nat) (test_funcs : list (ptr func_test_t))
    (index passed total : Z) : outcome (Z * Z) :=
  match fuel with
  | O => Fault FuelExhausted
  | S fuel' =>
    f ← array_get test_funcs index;
    match f with
    | None => Done (passed, total)
    | Some test =>
      r ← test tt;
      passed' ← int_arith (passed + test_result_value r);
      total' ← int_arith (total + 1);
      index' ← int_arith (index + 1);
      tests_loop fuel' test_funcs index' passed' total'
    end
  end.

(** [REGISTER_TESTS(args...)]: the value the [main] it defines returns. *)
Definition REGISTER_TESTS (args : list func_test_t) : outcome Z :=
  let test_funcs := (Some <$> args) ++ [NULL] in
  r ← tests_loop (S (length args)) test_funcs 0 0 0;
  Done (if fst r =? snd r then 0 else -1).

(** ** test/demo/demo_test.c *)

Fixpoint factorial_rec (fuel : nat) (n : Z) : outcome Z :=
  match fuel with
  | O => Fault FuelExhausted
  | S fuel' =>
    if n =? 0 then Done 1
    else
      r ← factorial_rec fuel' (to_uint (n - 1));
      Done (to_uint (n * r))
  end.

(** [factorial] on the [unsigned int] [n]. *)
Definition factorial (n : Z) : outcome Z :=
  factorial_rec (S (Z.to_nat n)) n.

Definition factorial_zero : func_test_t := fun _ =>
  v ← factorial 0;
  ASSERT_EQ v 7 END_TEST.

Definition factorial_one : func_test_t := fun _ =>
  v ← factorial 1;
  ASSERT_EQ v 1 END_TEST.

Definition factorial_five : func_test_t := fun _ =>
  v ← factorial 5;
  ASSERT_EQ v 120 END_TEST.

(** * Specifications *)

(** The largest number of elements for which every index computation of
    heap.c stays inside [int]: the sift-down computes [2 * index + 2]. *)
Definition MAX_ELEMS : Z := 2 ^ 30.

Global Instance ptr_inhabited (A : Type) : Inhabited (ptr A) := populate None.

(** The slot [i] of the array ([NULL] outside it). *)
Definition elt {A : Type} (es : list (ptr A)) (i : Z) : ptr A :=
  es !!! Z.to_nat i.

(** The array after the slots [i] and [j] are exchanged. *)
Definition swapped {A : Type} (es : list (ptr A)) (i j : Z) : list (ptr A) :=
  <[Z.to_nat j := elt es i]> (<[Z.to_nat i := elt es j]> es).

(** The elements of the heap: the first [size] slots. *)
Definition live {A : Type} (h : binary_heap A) : list (ptr A) :=
  take (Z.to_nat (size h)) (elems h).

Section HeapSpec.
Context {A : Type}.
Variable comparator : ptr A -> ptr A -> outcome comparison_t.
Variable valid : ptr A -> Prop.

(** [x] is not greater than [y]. *)
Definition cmp_le (x y : ptr A) : Prop :=
  comparator x y <> Done GREATER_THAN.

(** The comparator returns on the valid elements. *)
Definition cmp_defined : Prop :=
  forall x y, valid x -> valid y -> exists c, comparator x y = Done c.

(** The comparator is a three-way comparison of a total preorder of the
    valid elements. *)
Record three_way_comparator : Prop := {
  twc_defined : cmp_defined;
  twc_flip : forall x y, valid x -> valid y ->
    (comparator x y = Done LESS_THAN <-> comparator y x = Done GREATER_THAN);
  twc_trans : forall x y z, valid x -> valid y -> valid z ->
    cmp_le x y -> cmp_le y z -> cmp_le x z
}.

(** ... of a total order: only an element itself compares equal to it. *)
Record total_order_comparator : Prop := {
  toc_three_way : three_way_comparator;
  toc_antisym : forall x y, valid x -> valid y ->
    comparator x y = Done EQUAL_TO -> x = y
}.

(** The min-heap property of the first [n] slots. *)
Definition heap_ordered (n : Z) (es : list (ptr A)) : Prop :=
  forall i, 0 < i < n -> cmp_le (elt es ((i - 1) / 2)) (elt es i).

(** The property while the element at [j] is sifted up: it alone may be
    smaller than its parent, and its children are not smaller than its
    parent. *)
Definition up_inv (n : Z) (es : list (ptr A)) (j : Z) : Prop :=
  (forall i, 0 < i < n -> i <> j ->
     cmp_le (elt es ((i - 1) / 2)) (elt es i)) /\
  (forall c, 0 < c < n -> (c - 1) / 2 = j -> 0 < j ->
     cmp_le (elt es ((j - 1) / 2)) (elt es c)).

(** The property while the element at [j] is sifted down: it alone may be
    greater than its children, which are not smaller than its parent. *)
Definition down_inv (n : Z) (es : list (ptr A)) (j : Z) : Prop :=
  (forall i, 0 < i < n -> (i - 1) / 2 <> j ->
     cmp_le (elt es ((i - 1) / 2)) (elt es i)) /\
  (forall c, 0 < c < n -> (c - 1) / 2 = j -> 0 < j ->
     cmp_le (elt es ((j - 1) / 2)) (elt es c)).

(** The representation invariant of the structure: sizes within bounds,
    the array as long as its capacity, valid elements in the live slots. *)
Record heap_shape (h : binary_heap A) : Prop := {
  hs_size : 0 <= size h <= capacity h;
  hs_capacity : 1 <= capacity h <= 2 ^ 31;
  hs_length : Z.of_nat (length (elems h)) = capacity h;
  hs_bound : size h <= MAX_ELEMS;
  hs_valid : forall i, 0 <= i < size h -> valid (elt (elems h) i)
}.

End HeapSpec.

(** The sift-down state at [index] with its child indices. *)
Definition sift_at {A : Type} (es : list (ptr A)) (index : Z)
    (smaller : bool) : sift_state (A := A) :=
  {| st_elems := es;
     st_index := index;
     st_left_index := 2 * index + 1;
     st_right_index := 2 * index + 2;
     st_smaller_than_children := smaller |}.

(** The state the body leaves when it exchanges [index] and [child]. *)
Definition sift_moved {A : Type} (es : list (ptr A)) (index child : Z)
    : sift_state (A := A) :=
  sift_at (swapped es index child) child true.

(** The state the body leaves when it exchanges nothing. *)
Definition sift_stopped {A : Type} (es : list (ptr A)) (index : Z)
    : sift_state (A := A) :=
  sift_at es index false.

(** The pops of a run that returned an element. *)
Definition successful {A : Type} (rs : list (ptr A)) : list (ptr A) :=
  List.filter (fun r => negb (is_null r)) rs.

(** ** The event queue *)

(** The comparison [event_comparator] makes of two times. *)
Definition time_order {T C : Type} (tc : func_comparator_t T C)
    : ptr T -> ptr T -> outcome comparison_t :=
  fun x y => tc x y NULL.

(** The event [event_queue_enqueue] allocates for a payload and a time. *)
Definition event_of {D T : Type} (dt : ptr D * ptr T) : ptr (event D T) :=
  Some {| data := fst dt; time := snd dt |}.

(** A time structure exists. *)
Definition is_time {T : Type} (p : ptr T) : Prop := p <> NULL.

(** The doubles 1.0, 1.5 and 2.0. *)
Definition double_1_0 : spec_float := S754_finite false 4503599627370496 (-52).
Definition double_1_5 : spec_float := S754_finite false 6755399441055744 (-52).
Definition double_2_0 : spec_float := S754_finite false 4503599627370496 (-51).

(** A payload destructor that does nothing. *)
Definition no_free {D C : Type} : func_free_t D C := fun _ _ => Done tt.

(** The capacity of an array that was doubled some number of times from
    [DEFAULT_ARR_CAPACITY]. *)
Definition doubled_capacity (c : Z) : Prop :=
  exists k : nat, c = DEFAULT_ARR_CAPACITY * 2 ^ Z.of_nat k.

(** The insertions of nodes of the given values, in turn. *)
Definition insert_nodes (values : list Z) : list (heap_op node) :=
  (fun v => OpInsert (make_node v)) <$> values.

(** The number of the results that are [PASS]. *)
Definition passes (results : list test_result_t) : Z :=
  Z.of_nat (length (List.filter (fun r => test_result_value r =? 1) results)).

(** A heap of four nodes whose last element is smaller than its parent,
    as [binary_heap_insert] leaves it before the sift-up; and an ordered
    heap of five nodes. *)
Definition heap_before_sift_up : binary_heap node :=
  {| elems := [make_node 1; make_node 3; make_node 2; make_node 0]
              ++ replicate 12 NULL;
     size := 4;
     capacity := 16 |}.

Definition heap_of_five : binary_heap node :=
  {| elems := [make_node 1; make_node 3; make_node 2; make_node 7;
               make_node 4] ++ replicate 11 NULL;
     size := 5;
     capacity := 16 |}.

(** * Proofs *)

Ltac Zify.zify_post_hook ::= Z.to_euclidean_division_equations.

Lemma bind_Done {T U : Type} (t : T) (k : T -> outcome U) :
  (Done t ≫= k) = k t.
Proof. reflexivity. Qed.

Lemma bind_Done_inv {T U : Type} (m : outcome T) (k : T -> outcome U) (u : U) :
  (m ≫= k) = Done u -> exists t, m = Done t /\ k t = Done u.
Proof. destruct m as [t|f]; simpl; [eauto | discriminate]. Qed.

Lemma to_uint_small (z : Z) : 0 <= z < 2 ^ 32 -> to_uint z = z.
Proof. intros H. unfold to_uint. apply Z.mod_small. exact H. Qed.

Lemma to_int_small (z : Z) : 0 <= z < 2 ^ 31 -> to_int z = z.
Proof.
  intros H. unfold to_int. rewrite Z.mod_small; lia.
Qed.

Lemma int_arith_Done (z : Z) :
  INT_MIN <= z <= INT_MAX -> int_arith z = Done z.
Proof.
  intros [H1 H2]. unfold int_arith.
  apply Z.leb_le in H1, H2. rewrite H1, H2. reflexivity.
Qed.

Lemma parent_index_Done (i : Z) :
  0 <= i <= INT_MAX ->
  binary_heap_get_parent_index i = Done ((i - 1) ÷ 2).
Proof.
  intros H. unfold binary_heap_get_parent_index, INT_MAX in *.
  rewrite int_arith_Done by (unfold INT_MIN, INT_MAX; lia).
  rewrite bind_Done. apply int_arith_Done. unfold INT_MIN, INT_MAX. lia.
Qed.

Lemma left_child_index_Done (i : Z) :
  0 <= i < MAX_ELEMS ->
  binary_heap_get_left_child_index i = Done (2 * i + 1).
Proof.
  intros H. unfold binary_heap_get_left_child_index, MAX_ELEMS in *.
  rewrite int_arith_Done by (unfold INT_MIN, INT_MAX; lia).
  rewrite bind_Done. apply int_arith_Done. unfold INT_MIN, INT_MAX. lia.
Qed.

Lemma right_child_index_Done (i : Z) :
  0 <= i < MAX_ELEMS - 1 ->
  binary_heap_get_right_child_index i = Done (2 * i + 2).
Proof.
  intros H. unfold binary_heap_get_right_child_index, MAX_ELEMS in *.
  rewrite int_arith_Done by (unfold INT_MIN, INT_MAX; lia).
  rewrite bind_Done. apply int_arith_Done. unfold INT_MIN, INT_MAX. lia.
Qed.

Section ArrayFacts.
Context {A : Type}.
Implicit Types (es : list (ptr A)) (i j k n : Z).

Lemma array_get_elt es i :
  0 <= i < Z.of_nat (length es) -> array_get es i = Done (elt es i).
Proof.
  intros H. unfold array_get, elt.
  destruct (Z.ltb_spec i 0) as [|_]; [lia|].
  destruct (lookup_lt_is_Some_2 es (Z.to_nat i)) as [x Hx]; [lia|].
  rewrite Hx. f_equal. symmetry. apply list_lookup_total_correct. exact Hx.
Qed.

Lemma array_set_Done es i (x : ptr A) :
  0 <= i < Z.of_nat (length es) ->
  array_set es i x = Done (<[Z.to_nat i := x]> es).
Proof.
  intros [H1 H2]. unfold array_set.
  apply Z.leb_le in H1. apply Z.ltb_lt in H2. rewrite H1, H2. reflexivity.
Qed.

Lemma elt_insert_eq es i (x : ptr A) :
  0 <= i < Z.of_nat (length es) -> elt (<[Z.to_nat i := x]> es) i = x.
Proof.
  intros H. unfold elt. apply list_lookup_total_insert_eq. lia.
Qed.

Lemma elt_insert_ne es i j (x : ptr A) :
  0 <= i -> 0 <= j -> i <> j -> elt (<[Z.to_nat i := x]> es) j = elt es j.
Proof.
  intros Hi Hj Hne. unfold elt. apply list_lookup_total_insert_ne. lia.
Qed.

Lemma length_swapped es i j : length (swapped es i j) = length es.
Proof. unfold swapped. rewrite !length_insert. reflexivity. Qed.

Lemma elt_swapped es i j k :
  0 <= i < Z.of_nat (length es) -> 0 <= j < Z.of_nat (length es) -> 0 <= k ->
  elt (swapped es i j) k =
    if decide (k = j) then elt es i
    else if decide (k = i) then elt es j
    else elt es k.
Proof.
  intros Hi Hj Hk. unfold swapped.
  destruct (decide (k = j)) as [->|Hkj].
  - apply elt_insert_eq. rewrite length_insert. exact Hj.
  - rewrite elt_insert_ne by lia.
    destruct (decide (k = i)) as [->|Hki].
    + apply elt_insert_eq. exact Hi.
    + apply elt_insert_ne; lia.
Qed.

Lemma lookup_elt es i :
  0 <= i < Z.of_nat (length es) -> es !! Z.to_nat i = Some (elt es i).
Proof.
  intros H. unfold elt. apply list_lookup_lookup_total_lt. lia.
Qed.

Lemma take_swapped es i j n :
  0 <= i < n -> 0 <= j < n -> n <= Z.of_nat (length es) ->
  take (Z.to_nat n) (swapped es i j) ≡ₚ take (Z.to_nat n) es.
Proof.
  intros Hi Hj Hn. unfold swapped.
  rewrite !take_insert_lt by lia.
  apply Permutation_insert_swap.
  - rewrite lookup_take_lt by lia. apply lookup_elt. lia.
  - rewrite lookup_take_lt by lia. apply lookup_elt. lia.
Qed.

Lemma drop_swapped es i j n :
  0 <= i < n -> 0 <= j < n ->
  drop (Z.to_nat n) (swapped es i j) = drop (Z.to_nat n) es.
Proof.
  intros Hi Hj. unfold swapped. rewrite !drop_insert_lt by lia. reflexivity.
Qed.

Lemma swap_elems_Done es i j :
  0 <= i < Z.of_nat (length es) -> 0 <= j < Z.of_nat (length es) ->
  swap_elems es i j = Done (swapped es i j).
Proof.
  intros Hi Hj. unfold swap_elems, swapped.
  rewrite !array_get_elt by assumption. rewrite !bind_Done.
  rewrite array_set_Done by assumption. rewrite bind_Done.
  apply array_set_Done. rewrite length_insert. exact Hj.
Qed.

Lemma Forall_take_elt (P : ptr A -> Prop) es n :
  0 <= n <= Z.of_nat (length es) ->
  (Forall P (take (Z.to_nat n) es) <-> forall i, 0 <= i < n -> P (elt es i)).
Proof.
  intros Hn. rewrite Forall_lookup. split.
  - intros H i Hi. apply (H (Z.to_nat i)).
    rewrite lookup_take_lt by lia. apply lookup_elt. lia.
  - intros H i x Hx.
    assert (Hlt : (i < Z.to_nat n)%nat).
    { apply lookup_lt_Some in Hx. rewrite length_take in Hx. lia. }
    rewrite lookup_take_lt in Hx by exact Hlt.
    apply list_lookup_total_correct in Hx. subst x.
    specialize (H (Z.of_nat i)). unfold elt in H.
    rewrite Nat2Z.id in H. apply H. lia.
Qed.

End ArrayFacts.

(** ** The order of the comparator and the two sift invariants *)

Section OrderFacts.
Context {A : Type}.
Variable comparator : ptr A -> ptr A -> outcome comparison_t.
Variable valid : ptr A -> Prop.
Hypothesis Hcmp : three_way_comparator comparator valid.
Implicit Types (es : list (ptr A)) (i j k n : Z) (x y z : ptr A).

Local Abbreviation le := (cmp_le comparator).

Lemma cmp_le_of_LT x y : comparator x y = Done LESS_THAN -> le x y.
Proof. unfold cmp_le. congruence. Qed.

Lemma cmp_le_of_EQ x y : comparator x y = Done EQUAL_TO -> le x y.
Proof. unfold cmp_le. congruence. Qed.

Lemma cmp_le_of_GT x y :
  valid x -> valid y -> comparator x y = Done GREATER_THAN -> le y x.
Proof.
  intros Hx Hy H. apply cmp_le_of_LT.
  apply (twc_flip _ _ Hcmp); assumption.
Qed.

Lemma cmp_le_of_not_LT x y :
  valid x -> valid y -> comparator x y <> Done LESS_THAN -> le y x.
Proof.
  intros Hx Hy H G. apply H. apply (twc_flip _ _ Hcmp); assumption.
Qed.

Lemma cmp_le_refl x : valid x -> le x x.
Proof.
  intros Hx G. pose proof G as G'.
  apply (twc_flip _ _ Hcmp) in G'; [congruence | assumption..].
Qed.

Lemma cmp_GT_of_not_le x y :
  valid x -> valid y -> ~ le x y -> comparator x y = Done GREATER_THAN.
Proof.
  intros Hx Hy H. destruct (twc_defined _ _ Hcmp x y Hx Hy) as [c Hc].
  destruct c; [exfalso; apply H, cmp_le_of_LT, Hc | exact Hc
              | exfalso; apply H, cmp_le_of_EQ, Hc].
Qed.

Lemma up_inv_stop n es j :
  up_inv comparator n es j ->
  j = 0 \/ le (elt es ((j - 1) / 2)) (elt es j) ->
  heap_ordered comparator n es.
Proof.
  intros [Ha _] H i Hi. destruct (decide (i = j)) as [->|Hne].
  - destruct H as [->|H]; [lia | exact H].
  - apply Ha; assumption.
Qed.

Lemma up_inv_step n es j :
  (forall i, 0 <= i < n -> valid (elt es i)) ->
  n <= Z.of_nat (length es) ->
  0 < j < n ->
  up_inv comparator n es j ->
  comparator (elt es j) (elt es ((j - 1) / 2)) = Done LESS_THAN ->
  up_inv comparator n (swapped es j ((j - 1) / 2)) ((j - 1) / 2).
Proof.
  intros Hv Hn Hj [Ha Hb] Hlt.
  remember ((j - 1) / 2) as p eqn:Hp'.
  assert (Hp : 0 <= p < j) by lia.
  pose proof (cmp_le_of_LT _ _ Hlt) as Hjp.
  split.
  - intros i Hi Hip.
    remember ((i - 1) / 2) as q eqn:Hq.
    rewrite !elt_swapped by lia.
    destruct (decide (i = j)) as [Hij|Hij].
    + repeat case_decide; try lia. exact Hjp.
    + destruct (decide (q = p)) as [Hqp|Hqp].
      * repeat case_decide; try lia.
        apply (twc_trans _ _ Hcmp _ (elt es p)); try (apply Hv; lia).
        -- exact Hjp.
        -- rewrite <- Hqp, Hq. apply Ha; assumption.
      * destruct (decide (q = j)) as [Hqj|Hqj].
        -- repeat case_decide; try lia.
           apply (Hb i); lia.
        -- repeat case_decide; try lia.
           rewrite Hq. apply Ha; assumption.
  - intros c Hc Hcp Hp0.
    remember ((p - 1) / 2) as q eqn:Hq.
    rewrite !elt_swapped by lia.
    destruct (decide (c = j)) as [Hcj|Hcj].
    + repeat case_decide; try lia.
      rewrite Hq. apply Ha; lia.
    + repeat case_decide; try lia.
      apply (twc_trans _ _ Hcmp _ (elt es p)); try (apply Hv; lia).
      * rewrite Hq. apply Ha; lia.
      * rewrite <- Hcp. apply Ha; lia.
Qed.

Lemma down_inv_stop n es j :
  0 <= j ->
  down_inv comparator n es j ->
  (forall s, s = 2 * j + 1 \/ s = 2 * j + 2 -> s < n ->
     le (elt es j) (elt es s)) ->
  heap_ordered comparator n es.
Proof.
  intros Hj [Ha _] Hch i Hi.
  destruct (decide ((i - 1) / 2 = j)) as [Hp|Hp].
  - rewrite Hp. apply Hch; lia.
  - apply Ha; assumption.
Qed.

Lemma down_inv_step n es j c :
  (forall i, 0 <= i < n -> valid (elt es i)) ->
  n <= Z.of_nat (length es) ->
  0 <= j -> c = 2 * j + 1 \/ c = 2 * j + 2 -> c < n ->
  down_inv comparator n es j ->
  le (elt es c) (elt es j) ->
  (forall s, s = 2 * j + 1 \/ s = 2 * j + 2 -> s < n ->
     le (elt es c) (elt es s)) ->
  down_inv comparator n (swapped es j c) c.
Proof.
  intros Hv Hn Hj Hc Hcn [Ha Hb] Hcj Hsib.
  split.
  - intros i Hi Hic.
    remember ((i - 1) / 2) as q eqn:Hq.
    rewrite !elt_swapped by lia.
    destruct (decide (q = j)) as [Hqj|Hqj].
    + destruct (decide (i = c)) as [Hne|Hne].
      * repeat case_decide; try lia. exact Hcj.
      * repeat case_decide; try lia. apply Hsib; lia.
    + destruct (decide (i = j)) as [Hij|Hij].
      * repeat case_decide; try lia. rewrite Hq, Hij. apply (Hb c); lia.
      * repeat case_decide; try lia. rewrite Hq. apply Ha; lia.
  - intros g Hg Hgc Hc0.
    remember ((c - 1) / 2) as q eqn:Hq.
    rewrite !elt_swapped by lia.
    repeat case_decide; try lia.
    rewrite <- Hgc. apply Ha; lia.
Qed.

(** The root of an ordered heap is not greater than any of its elements. *)
Lemma heap_ordered_root n es :
  (forall i, 0 <= i < n -> valid (elt es i)) ->
  heap_ordered comparator n es ->
  forall i, 0 <= i < n -> le (elt es 0) (elt es i).
Proof.
  intros Hv Ho i Hi.
  assert (H : forall m : nat, forall k, 0 <= k < n -> k <= Z.of_nat m ->
                le (elt es 0) (elt es k)).
  { induction m as [|m IH]; intros k Hk Hkm.
    - replace k with 0 by lia. apply cmp_le_refl, Hv. lia.
    - destruct (decide (k = 0)) as [->|Hk0].
      + apply cmp_le_refl, Hv. lia.
      + apply (twc_trans _ _ Hcmp _ (elt es ((k - 1) / 2)));
          try (apply Hv; lia).
        * apply IH; lia.
        * apply Ho. lia. }
  apply (H (Z.to_nat i)); lia.
Qed.

End OrderFacts.

(** ** The two loops *)

Section LoopFacts.
Context {A : Type}.
Variable comparator : ptr A -> ptr A -> outcome comparison_t.
Variable valid : ptr A -> Prop.
Hypothesis Hdef : cmp_defined comparator valid.
Implicit Types (es : list (ptr A)) (i j k n : Z).

Lemma valid_swapped es i j n :
  0 <= i < n -> 0 <= j < n -> n <= Z.of_nat (length es) ->
  (forall k, 0 <= k < n -> valid (elt es k)) ->
  forall k, 0 <= k < n -> valid (elt (swapped es i j) k).
Proof.
  intros Hi Hj Hn Hv k Hk. rewrite elt_swapped by lia.
  repeat case_decide; apply Hv; lia.
Qed.

(** The sift-up loop returns: it permutes the live slots, and it ends with
    an ordered heap when it starts from [up_inv]. *)
Lemma bubble_loop_correct n fuel : forall es j,
  0 <= j < n -> n <= Z.of_nat (length es) -> n <= 2 ^ 31 ->
  (Z.to_nat j < fuel)%nat ->
  (forall i, 0 <= i < n -> valid (elt es i)) ->
  exists es',
    bubble_loop comparator fuel es j ((j - 1) ÷ 2) = Done es' /\
    length es' = length es /\
    take (Z.to_nat n) es' ≡ₚ take (Z.to_nat n) es /\
    drop (Z.to_nat n) es' = drop (Z.to_nat n) es /\
    (forall i, 0 <= i < n -> valid (elt es' i)) /\
    (three_way_comparator comparator valid ->
     up_inv comparator n es j -> heap_ordered comparator n es').
Proof.
  induction fuel as [|fuel IH]; intros es j Hj Hn Hmax Hfuel Hv; [lia|].
  cbn [bubble_loop].
  destruct (Z.eqb_spec j 0) as [->|Hj0].
  { exists es. repeat split; auto.
    intros Hcmp Hup. eapply up_inv_stop; eauto. }
  replace ((j - 1) ÷ 2) with ((j - 1) / 2) by lia.
  remember ((j - 1) / 2) as p eqn:Hp.
  assert (Hpj : 0 <= p < j) by lia.
  rewrite !array_get_elt by lia. rewrite !bind_Done.
  destruct (Hdef (elt es j) (elt es p)) as [c Hc]; try (apply Hv; lia).
  rewrite Hc, bind_Done.
  destruct c; cbn [comparison_eqb].
  2,3: exists es; repeat split; auto; intros Hcmp Hup;
       eapply up_inv_stop; eauto; right; rewrite <- Hp;
       apply (cmp_le_of_not_LT comparator valid Hcmp);
       try (apply Hv; lia); congruence.
  rewrite (array_set_Done es j) by lia. rewrite bind_Done.
  rewrite array_set_Done by (rewrite length_insert; lia). rewrite bind_Done.
  rewrite parent_index_Done by (unfold INT_MAX; lia). rewrite bind_Done.
  replace ((p =? 0) || negb ((p - 1) ÷ 2 =? -1)) with true.
  2:{ symmetry. destruct (Z.eqb_spec p 0); [reflexivity|].
      destruct (Z.eqb_spec ((p - 1) ÷ 2) (-1)); [lia|reflexivity]. }
  cbn [assert]. rewrite bind_Done.
  fold (swapped es j p).
  destruct (IH (swapped es j p) p) as (es' & Hrun & Hlen & Hperm & Hdrop & Hv' & Hord).
  - lia.
  - rewrite length_swapped. exact Hn.
  - exact Hmax.
  - lia.
  - apply valid_swapped; auto; lia.
  - exists es'. split; [exact Hrun|].
    split; [rewrite Hlen; apply length_swapped|].
    split; [rewrite Hperm; apply take_swapped; lia|].
    split; [rewrite Hdrop; apply drop_swapped; lia|].
    split; [exact Hv'|].
    intros Hcmp Hup. apply Hord; [exact Hcmp|].
    rewrite Hp. apply (up_inv_step comparator valid Hcmp); auto; try lia.
    rewrite <- Hp. exact Hc.
Qed.

End LoopFacts.

Section SiftBody.
Context {A : Type}.
Variable comparator : ptr A -> ptr A -> outcome comparison_t.
Implicit Types (es : list (ptr A)) (i j k n sz index : Z).

Lemma sift_next_state es index index' (smaller : bool) :
  0 <= index' < MAX_ELEMS - 1 ->
  (left_index' ← binary_heap_get_left_child_index index';
   right_index' ← binary_heap_get_right_child_index index';
   Done {| st_elems := es;
           st_index := index';
           st_left_index := left_index';
           st_right_index := right_index';
           st_smaller_than_children := smaller |})
  = Done (sift_at es index' smaller).
Proof.
  intros H.
  rewrite left_child_index_Done by lia. rewrite bind_Done.
  rewrite right_child_index_Done by lia. rewrite bind_Done.
  reflexivity.
Qed.

Lemma sift_body_left_only es index sz (b : bool) c :
  0 <= index -> 2 * index + 1 < sz -> sz <= 2 * index + 2 ->
  sz <= Z.of_nat (length es) -> sz < MAX_ELEMS ->
  comparator (elt es index) (elt es (2 * index + 1)) = Done c ->
  sift_body comparator sz (sift_at es index b) =
    Done (if comparison_eqb c GREATER_THAN
          then sift_moved es index (2 * index + 1)
          else sift_stopped es index).
Proof.
  intros Hi Hl Hr Hn Hmax Hc.
  unfold sift_body, sift_at, sift_moved, sift_stopped, MAX_ELEMS in *.
  cbn [st_elems st_index st_left_index st_right_index].
  rewrite !to_uint_small by lia.
  destruct (Z.ltb_spec (2 * index + 1) sz) as [_|]; [|lia].
  destruct (Z.ltb_spec (2 * index + 2) sz) as [|_]; [lia|].
  rewrite !array_get_elt by lia. rewrite !bind_Done, Hc, !bind_Done.
  unfold sift_decide. cbn [andb read_local]. rewrite !bind_Done.
  destruct (comparison_eqb c GREATER_THAN).
  - rewrite !bind_Done. cbn [fst snd].
    rewrite swap_elems_Done by lia. rewrite !bind_Done. cbn [fst snd].
    apply (sift_next_state _ index). unfold MAX_ELEMS. lia.
  - rewrite !bind_Done. cbn [fst snd].
    apply (sift_next_state _ index). unfold MAX_ELEMS. lia.
Qed.

Lemma sift_body_both es index sz (b : bool) lc rc cc :
  0 <= index -> 2 * index + 2 < sz ->
  sz <= Z.of_nat (length es) -> sz < MAX_ELEMS ->
  comparator (elt es index) (elt es (2 * index + 1)) = Done lc ->
  comparator (elt es index) (elt es (2 * index + 2)) = Done rc ->
  comparator (elt es (2 * index + 1)) (elt es (2 * index + 2)) = Done cc ->
  sift_body comparator sz (sift_at es index b) =
    Done (if comparison_eqb lc GREATER_THAN && comparison_eqb rc GREATER_THAN
          then if comparison_eqb cc LESS_THAN || comparison_eqb cc EQUAL_TO
               then sift_moved es index (2 * index + 1)
               else sift_moved es index (2 * index + 2)
          else if comparison_eqb lc GREATER_THAN
               then sift_moved es index (2 * index + 1)
          else if comparison_eqb rc GREATER_THAN
               then sift_moved es index (2 * index + 2)
          else sift_stopped es index).
Proof.
  intros Hi Hr Hn Hmax Hlc Hrc Hcc.
  unfold sift_body, sift_at, sift_moved, sift_stopped, MAX_ELEMS in *.
  cbn [st_elems st_index st_left_index st_right_index].
  rewrite !to_uint_small by lia.
  destruct (Z.ltb_spec (2 * index + 1) sz) as [_|]; [|lia].
  destruct (Z.ltb_spec (2 * index + 2) sz) as [_|]; [|lia].
  rewrite !array_get_elt by lia. rewrite !bind_Done, Hlc, !bind_Done.
  rewrite Hrc, !bind_Done.
  unfold sift_decide. cbn [andb read_local]. rewrite !bind_Done.
  rewrite !array_get_elt by lia. 
  destruct (comparison_eqb lc GREATER_THAN), (comparison_eqb rc GREATER_THAN);
    cbn [andb]; rewrite ?bind_Done, ?Hcc, ?bind_Done;
    try destruct (comparison_eqb cc LESS_THAN || comparison_eqb cc EQUAL_TO);
    rewrite ?bind_Done; cbn [fst snd];
    rewrite ?swap_elems_Done by lia; rewrite ?bind_Done; cbn [fst snd];
    apply (sift_next_state _ index); unfold MAX_ELEMS; lia.
Qed.

End SiftBody.

(** [cmp_le] goals between the node and its children, from the results of
    the comparisons the body made. *)
Ltac le_direct comparator valid Hcmp :=
  first [ apply cmp_le_of_LT; assumption
        | apply cmp_le_of_EQ; assumption
        | apply (cmp_le_of_GT comparator valid Hcmp); assumption
        | apply (cmp_le_refl comparator valid Hcmp); assumption ].

Ltac le_solve comparator valid Hcmp mid :=
  first [ le_direct comparator valid Hcmp
        | apply (twc_trans _ _ Hcmp _ mid);
          [assumption | assumption | assumption
          | le_direct comparator valid Hcmp
          | le_direct comparator valid Hcmp ] ].

Section SiftLoop.
Context {A : Type}.
Variable comparator : ptr A -> ptr A -> outcome comparison_t.
Variable valid : ptr A -> Prop.
Hypothesis Hdef : cmp_defined comparator valid.
Implicit Types (es : list (ptr A)) (i j k n sz index : Z).

(** One iteration from [index], whose left child is present: the body
    returns, and it either stops on an ordered heap or moves to a child
    and keeps [down_inv]. *)
Lemma sift_body_correct es index sz (b : bool) :
  0 <= index -> 2 * index + 1 < sz ->
  sz <= Z.of_nat (length es) -> sz < MAX_ELEMS ->
  (forall i, 0 <= i < sz -> valid (elt es i)) ->
  exists st',
    sift_body comparator sz (sift_at es index b) = Done st' /\
    ((st' = sift_stopped es index /\
      (three_way_comparator comparator valid ->
       down_inv comparator sz es index -> heap_ordered comparator sz es))
     \/
     (exists c, (c = 2 * index + 1 \/ c = 2 * index + 2) /\ c < sz /\
        st' = sift_moved es index c /\
        (three_way_comparator comparator valid ->
         down_inv comparator sz es index ->
         down_inv comparator sz (swapped es index c) c))).
Proof.
  intros Hi Hl Hn Hmax Hv.
  assert (Hvi : valid (elt es index)) by (apply Hv; lia).
  assert (Hvl : valid (elt es (2 * index + 1))) by (apply Hv; lia).
  destruct (Hdef _ _ Hvi Hvl) as [lc Hlc].
  destruct (Z.lt_ge_cases (2 * index + 2) sz) as [Hr|Hr].
  - assert (Hvr : valid (elt es (2 * index + 2))) by (apply Hv; lia).
    destruct (Hdef _ _ Hvi Hvr) as [rc Hrc].
    destruct (Hdef _ _ Hvl Hvr) as [cc Hcc].
    eexists. split.
    { eapply sift_body_both; eauto. }
    destruct lc, rc, cc; cbn [comparison_eqb andb orb];
      first
        [ left; split; [reflexivity|]; intros Hcmp Hd;
          apply (down_inv_stop comparator sz es index Hi Hd);
          intros s [->| ->] Hs
        | right; exists (2 * index + 1);
          split; [lia|]; split; [lia|]; split; [reflexivity|];
          intros Hcmp Hd;
          apply (down_inv_step comparator valid); auto; try lia;
          [|intros s [->| ->] Hs]
        | right; exists (2 * index + 2);
          split; [lia|]; split; [lia|]; split; [reflexivity|];
          intros Hcmp Hd;
          apply (down_inv_step comparator valid); auto; try lia;
          [|intros s [->| ->] Hs] ];
      le_solve comparator valid Hcmp (elt es index).
  - eexists. split.
    { eapply sift_body_left_only; eauto. }
    destruct lc; cbn [comparison_eqb];
      first
        [ left; split; [reflexivity|]; intros Hcmp Hd;
          apply (down_inv_stop comparator sz es index Hi Hd);
          intros s [->| ->] Hs; try lia
        | right; exists (2 * index + 1);
          split; [lia|]; split; [lia|]; split; [reflexivity|];
          intros Hcmp Hd;
          apply (down_inv_step comparator valid); auto; try lia;
          [|intros s [->| ->] Hs; try lia] ];
      le_solve comparator valid Hcmp (elt es index).
Qed.

(** The sift-down loop returns: it permutes the live slots, and it ends
    with an ordered heap when it starts from [down_inv]. *)
Lemma sift_loop_correct sz fuel : forall es index (b : bool),
  0 <= index <= sz -> sz <= Z.of_nat (length es) -> sz < MAX_ELEMS ->
  (forall i, 0 <= i < sz -> valid (elt es i)) ->
  (if b then Z.to_nat (sz - index) + 2 <= fuel else 1 <= fuel)%nat ->
  exists st',
    sift_loop comparator fuel sz (sift_at es index b) = Done st' /\
    length (st_elems st') = length es /\
    take (Z.to_nat sz) (st_elems st') ≡ₚ take (Z.to_nat sz) es /\
    drop (Z.to_nat sz) (st_elems st') = drop (Z.to_nat sz) es /\
    (forall i, 0 <= i < sz -> valid (elt (st_elems st') i)) /\
    (three_way_comparator comparator valid ->
     (if b then down_inv comparator sz es index
      else heap_ordered comparator sz es) ->
     heap_ordered comparator sz (st_elems st')).
Proof.
  induction fuel as [|fuel IH]; intros es index b Hi Hn Hsz Hv Hfuel.
  { destruct b; lia. }
  cbn [sift_loop]. unfold sift_condition.
  cbn [sift_at st_left_index st_right_index st_smaller_than_children].
  unfold MAX_ELEMS in Hsz.
  destruct b.
  2:{ rewrite andb_false_r. exists (sift_at es index false).
      cbn [sift_at st_elems]. repeat split; auto. }
  rewrite andb_true_r.
  destruct (Z.lt_ge_cases (2 * index + 1) sz) as [Hl|Hl].
  - rewrite !to_uint_small by lia.
    destruct (Z.ltb_spec (2 * index + 1) sz) as [_|]; [|lia].
    cbn [orb].
    destruct (sift_body_correct es index sz true) as (st1 & Hbody & Hcase);
      auto; try (unfold MAX_ELEMS; lia).
    rewrite Hbody, bind_Done.
    destruct Hcase as [[-> Hord]|(c & Hc & Hcsz & -> & Hord)].
    + destruct (IH es index false) as (st' & Hrun & Hlen & Hperm & Hdrop & Hv' & Ho);
        auto; try (unfold MAX_ELEMS; lia).
      exists st'. split; [exact Hrun|]. split; [exact Hlen|].
      split; [exact Hperm|]. split; [exact Hdrop|]. split; [exact Hv'|].
      intros Hcmp Hd. apply Ho; auto.
    + destruct (IH (swapped es index c) c true)
        as (st' & Hrun & Hlen & Hperm & Hdrop & Hv' & Ho);
        try (unfold MAX_ELEMS; lia).
      * rewrite length_swapped. exact Hn.
      * apply valid_swapped; auto; lia.
      * exists st'. split; [exact Hrun|].
        split; [rewrite Hlen; apply length_swapped|].
        split; [rewrite Hperm; apply take_swapped; lia|].
        split; [rewrite Hdrop; apply drop_swapped; lia|].
        split; [exact Hv'|].
        intros Hcmp Hd. apply Ho; auto.
  - rewrite !to_uint_small by lia.
    destruct (Z.ltb_spec (2 * index + 1) sz) as [|_]; [lia|].
    destruct (Z.ltb_spec (2 * index + 2) sz) as [|_]; [lia|].
    cbn [orb]. exists (sift_at es index true).
    cbn [sift_at st_elems]. repeat split; auto.
    intros Hcmp Hd. apply (down_inv_stop comparator sz es index); auto; lia.
Qed.

End SiftLoop.

(** ** The operations *)

Lemma take_pop_Permutation {T : Type} (l : list T) (n : nat) (x y : T) :
  l !! 0%nat = Some x -> l !! n = Some y ->
  x :: take n (<[0%nat := y]> l) ≡ₚ take (S n) l.
Proof.
  destruct l as [|a l]; [discriminate|].
  intros [= ->] Hn. destruct n as [|m].
  - reflexivity.
  - cbn in Hn. cbn [take list_insert]. simpl.
    rewrite (take_S_r l m y Hn).
    apply perm_skip. apply Permutation_cons_append.
Qed.

Section Operations.
Context {A : Type}.
Variable comparator : ptr A -> ptr A -> outcome comparison_t.
Variable valid : ptr A -> Prop.
Hypothesis Hdef : cmp_defined comparator valid.
Implicit Types (es : list (ptr A)) (i j k n : Z) (h : binary_heap A).

Lemma create_empty_heap_shape : heap_shape valid (create_empty_heap (A := A)).
Proof.
  split; unfold create_empty_heap, DEFAULT_ARR_CAPACITY, MAX_ELEMS;
    cbn [size capacity elems].
  - lia.
  - lia.
  - rewrite length_replicate. lia.
  - lia.
  - intros i Hi. lia.
Qed.

Lemma create_empty_heap_ordered :
  heap_ordered comparator 0 (elems (create_empty_heap (A := A))).
Proof. intros i Hi. lia. Qed.

Lemma binary_heap_insert_correct h elem :
  heap_shape valid h -> size h < MAX_ELEMS -> valid elem ->
  exists h',
    binary_heap_insert comparator h elem = Done (1, h') /\
    size h' = size h + 1 /\
    heap_shape valid h' /\
    live h' ≡ₚ elem :: live h /\
    (three_way_comparator comparator valid ->
     heap_ordered comparator (size h) (elems h) ->
     heap_ordered comparator (size h') (elems h')).
Proof.
  intros [Hs Hc Hl Hb Hv] Hmax Hve. unfold MAX_ELEMS in *.
  unfold binary_heap_insert.
  destruct (Z.leb_spec (size h) (capacity h)) as [_|]; [|lia].
  cbn [assert]. rewrite bind_Done.
  set (h1 := if size h =? capacity h then _ else h).
  assert (H1 : size h1 = size h /\ size h < capacity h1 <= 2 ^ 31 /\
               Z.of_nat (length (elems h1)) = capacity h1 /\
               (forall i, 0 <= i < size h -> elt (elems h1) i = elt (elems h) i) /\
               take (Z.to_nat (size h)) (elems h1) = live h).
  { subst h1. destruct (Z.eqb_spec (size h) (capacity h)) as [Heq|Hne].
    - cbn [elems size capacity]. rewrite to_uint_small by lia.
      rewrite length_resize.
      split; [reflexivity|]. split; [lia|]. split; [lia|]. split.
      + intros i Hi. unfold elt. rewrite !list_lookup_total_alt.
        rewrite lookup_resize by lia. reflexivity.
      + rewrite take_resize_le by lia. unfold live.
        apply resize_le. lia.
    - split; [reflexivity|]. split; [lia|]. split; [lia|]. split; auto. }
  destruct H1 as (Hs1 & Hc1 & Hl1 & He1 & Ht1).
  rewrite array_set_Done by lia. rewrite bind_Done.
  set (es1 := <[Z.to_nat (size h1) := elem]> (elems h1)).
  rewrite Hs1. rewrite (to_uint_small (size h + 1)) by lia.
  unfold binary_heap_bubble_last_element. cbn [size elems capacity].
  replace (size h + 1 - 1) with (size h) by lia.
  rewrite to_uint_small by lia. rewrite to_int_small by lia.
  rewrite parent_index_Done by (unfold INT_MAX; lia). rewrite bind_Done.
  replace ((size h =? 0) || negb ((size h - 1) ÷ 2 =? -1)) with true.
  2:{ symmetry. destruct (Z.eqb_spec (size h) 0); [reflexivity|].
      destruct (Z.eqb_spec ((size h - 1) ÷ 2) (-1)); [lia|reflexivity]. }
  cbn [assert]. rewrite bind_Done.
  assert (Hlen1 : length es1 = length (elems h1))
    by (subst es1; apply length_insert).
  assert (Hes1 : forall i, 0 <= i < size h + 1 ->
            elt es1 i = if decide (i = size h) then elem else elt (elems h) i).
  { intros i Hi. subst es1. rewrite Hs1. case_decide as Hd.
    - subst i. apply elt_insert_eq. lia.
    - rewrite elt_insert_ne by lia. apply He1. lia. }
  destruct (bubble_loop_correct comparator valid Hdef (size h + 1)
              (S (Z.to_nat (size h + 1))) es1 (size h))
    as (es' & Hrun & Hlen & Hperm & Hdrop & Hv' & Hord); try lia.
  { intros i Hi. rewrite Hes1 by lia. case_decide; [exact Hve|]. apply Hv. lia. }
  rewrite Hrun, bind_Done. rewrite bind_Done. cbn [snd].
  eexists. split; [reflexivity|]. cbn [size elems capacity].
  split; [reflexivity|]. split; [|split].
  - split; cbn [size elems capacity]; unfold MAX_ELEMS; try lia. exact Hv'.
  - unfold live at 1. cbn [size elems]. rewrite Hperm.
    replace (Z.to_nat (size h + 1)) with (S (Z.to_nat (size h))) by lia.
    rewrite (take_S_r es1 _ elem).
    + subst es1. rewrite Hs1. rewrite take_insert_ge by lia.
      rewrite Ht1. symmetry. apply Permutation_cons_append.
    + subst es1. rewrite Hs1. apply list_lookup_insert_eq. lia.
  - intros Hcmp Ho. apply Hord; [exact Hcmp|].
    split.
    + intros i Hi Hne. rewrite !Hes1 by lia.
      rewrite !decide_False by lia. apply Ho. lia.
    + intros c Hc' Hp. lia.
Qed.

Lemma binary_heap_pop_min_empty h :
  size h = 0 -> binary_heap_pop_min comparator h = Done (NULL, h).
Proof.
  intros H. unfold binary_heap_pop_min, binary_heap_min. rewrite H.
  reflexivity.
Qed.

Lemma binary_heap_min_empty h : size h = 0 -> binary_heap_min h = Done NULL.
Proof. intros H. unfold binary_heap_min. rewrite H. reflexivity. Qed.

Lemma binary_heap_min_root h :
  heap_shape valid h -> 0 < size h ->
  binary_heap_min h = Done (elt (elems h) 0).
Proof.
  intros [Hs Hc Hl Hb Hv] Hpos. unfold binary_heap_min.
  destruct (Z.eqb_spec (size h) 0); [lia|]. apply array_get_elt. lia.
Qed.

Lemma binary_heap_pop_min_null_root h :
  heap_shape valid h -> 0 < size h -> elt (elems h) 0 = NULL ->
  binary_heap_pop_min comparator h = Done (NULL, h).
Proof.
  intros Hsh Hpos Hnull. unfold binary_heap_pop_min.
  rewrite (binary_heap_min_root h Hsh Hpos), bind_Done, Hnull. reflexivity.
Qed.

Lemma binary_heap_pop_min_correct h :
  heap_shape valid h -> 0 < size h -> elt (elems h) 0 <> NULL ->
  exists h',
    binary_heap_pop_min comparator h = Done (elt (elems h) 0, h') /\
    size h' = size h - 1 /\
    heap_shape valid h' /\
    elt (elems h) 0 :: live h' ≡ₚ live h /\
    (three_way_comparator comparator valid ->
     heap_ordered comparator (size h) (elems h) ->
     heap_ordered comparator (size h') (elems h')).
Proof.
  intros Hsh Hpos Hnn. pose proof Hsh as [Hs Hc Hl Hb Hv].
  unfold MAX_ELEMS in *. unfold binary_heap_pop_min.
  rewrite (binary_heap_min_root h Hsh Hpos), bind_Done.
  destruct (elt (elems h) 0) as [root|] eqn:Hroot;
    [|exfalso; apply Hnn; reflexivity].
  cbn [is_null].
  rewrite to_uint_small by lia.
  rewrite array_get_elt by lia. rewrite bind_Done.
  rewrite array_set_Done by lia. rewrite bind_Done.
  rewrite array_set_Done by (rewrite length_insert; lia). rewrite bind_Done.
  set (sz := size h - 1).
  set (last := elt (elems h) sz).
  set (es2 := <[Z.to_nat sz := NULL]> (<[Z.to_nat 0 := last]> (elems h))).
  rewrite (left_child_index_Done 0) by (unfold MAX_ELEMS; lia).
  rewrite bind_Done.
  rewrite (right_child_index_Done 0) by (unfold MAX_ELEMS; lia).
  rewrite bind_Done.
  change {| st_elems := es2; st_index := 0; st_left_index := 2 * 0 + 1;
            st_right_index := 2 * 0 + 2; st_smaller_than_children := true |}
    with (sift_at es2 0 true).
  assert (Hlen2 : length es2 = length (elems h))
    by (subst es2; rewrite !length_insert; reflexivity).
  assert (Hes2 : forall i, 0 <= i < sz ->
            elt es2 i = if decide (i = 0) then last else elt (elems h) i).
  { intros i Hi. subst es2. rewrite elt_insert_ne by lia.
    case_decide as Hd.
    - subst i. apply elt_insert_eq. lia.
    - apply elt_insert_ne; lia. }
  destruct (sift_loop_correct comparator valid Hdef sz (S (S (Z.to_nat sz)))
              es2 0 true)
    as (st' & Hrun & Hlen & Hperm & Hdrop & Hv' & Hord);
    try (unfold MAX_ELEMS; lia).
  { intros i Hi. rewrite Hes2 by lia. case_decide; apply Hv; lia. }
  rewrite Hrun, bind_Done.
  eexists. split; [reflexivity|]. cbn [size elems capacity].
  split; [reflexivity|]. split; [|split].
  - split; cbn [size elems capacity]; unfold MAX_ELEMS; try lia. exact Hv'.
  - unfold live. cbn [size elems]. fold sz. rewrite Hperm.
    subst es2. rewrite take_insert_ge by lia.
    replace (Z.to_nat (size h)) with (S (Z.to_nat sz)) by lia.
    apply take_pop_Permutation.
    + rewrite <- Hroot. apply (lookup_elt (elems h) 0). lia.
    + apply lookup_elt. lia.
  - intros Hcmp Ho. apply Hord; [exact Hcmp|].
    split.
    + intros i Hi Hne. rewrite !Hes2 by lia.
      rewrite !decide_False by lia. apply Ho. lia.
    + intros c Hc' Hp. lia.
Qed.

End Operations.

(** ** Sequences of operations *)

Section Sequences.
Context {A : Type}.
Variable comparator : ptr A -> ptr A -> outcome comparison_t.
Variable valid : ptr A -> Prop.
Hypothesis Hdef : cmp_defined comparator valid.
Implicit Types (es : list (ptr A)) (i j k n : Z) (h : binary_heap A).

Lemma run_ops_correct ops : forall h,
  heap_shape valid h ->
  Forall valid (inserted ops) ->
  size h + Z.of_nat (length (inserted ops)) <= MAX_ELEMS ->
  exists rs h',
    run_ops comparator ops h = Done (rs, h') /\
    heap_shape valid h' /\
    size h' = size h + Z.of_nat (length (inserted ops))
              - Z.of_nat (length (successful rs)) /\
    (three_way_comparator comparator valid ->
     heap_ordered comparator (size h) (elems h) ->
     heap_ordered comparator (size h') (elems h')).
Proof.
  induction ops as [|[elem|] ops IH]; intros h Hsh Hval Hmax.
  - exists [], h. split; [reflexivity|]. split; [exact Hsh|].
    split; [cbn; lia|]. auto.
  - cbn [inserted] in Hval, Hmax. cbn [length] in Hmax.
    apply Forall_cons in Hval as [Hve Hval].
    destruct (binary_heap_insert_correct comparator valid Hdef h elem)
      as (h1 & Hrun & Hsz & Hsh1 & _ & Hord1); auto; try lia.
    destruct (IH h1) as (rs & h' & Hrun' & Hsh' & Hsz' & Hord'); auto; try lia.
    exists rs, h'. cbn [run_ops]. rewrite Hrun, bind_Done. cbn [snd].
    split; [exact Hrun'|]. split; [exact Hsh'|].
    split; [cbn [inserted length]; lia|]. auto.
  - cbn [inserted] in Hval, Hmax.
    assert (Hpop : exists r h1,
              binary_heap_pop_min comparator h = Done (r, h1) /\
              heap_shape valid h1 /\
              size h1 = size h - Z.of_nat (length (successful [r])) /\
              (three_way_comparator comparator valid ->
               heap_ordered comparator (size h) (elems h) ->
               heap_ordered comparator (size h1) (elems h1))).
    { destruct (decide (size h = 0)) as [H0|H0].
      - exists NULL, h. rewrite binary_heap_pop_min_empty by exact H0.
        split; [reflexivity|]. split; [exact Hsh|]. split; [cbn; lia|]. auto.
      - assert (Hpos : 0 < size h) by (destruct Hsh; lia).
        destruct (elt (elems h) 0) as [root|] eqn:Hroot.
        + destruct (binary_heap_pop_min_correct comparator valid Hdef h)
            as (h1 & Hrun & Hsz & Hsh1 & _ & Hord1); auto.
          { rewrite Hroot. discriminate. }
          rewrite Hroot in Hrun. exists (Some root), h1.
          split; [exact Hrun|]. split; [exact Hsh1|]. split; [cbn; lia|].
          exact Hord1.
        + exists NULL, h.
          rewrite (binary_heap_pop_min_null_root comparator valid h) by auto.
          split; [reflexivity|]. split; [exact Hsh|]. split; [cbn; lia|].
          auto. }
    destruct Hpop as (r & h1 & Hrun & Hsh1 & Hsz & Hord1).
    destruct (IH h1) as (rs & h' & Hrun' & Hsh' & Hsz' & Hord'); auto.
    { cbn [successful List.filter] in Hsz.
      destruct (negb (is_null r)); cbn [length] in Hsz; lia. }
    exists (r :: rs), h'. cbn [run_ops]. rewrite Hrun, bind_Done. cbn [snd fst].
    rewrite Hrun', bind_Done. cbn [snd fst].
    split; [reflexivity|]. split; [exact Hsh'|].
    split; [|auto].
    cbn [inserted]. rewrite Hsz'. rewrite Hsz.
    unfold successful. cbn [List.filter].
    destruct (negb (is_null r)); cbn [length]; lia.
Qed.

End Sequences.

Section Draining.
Context {A : Type}.
Variable comparator : ptr A -> ptr A -> outcome comparison_t.
Variable valid : ptr A -> Prop.
Hypothesis Hdef : cmp_defined comparator valid.
Hypothesis Hnn : forall x, valid x -> x <> NULL.
Implicit Types (es : list (ptr A)) (i j k n : Z) (h : binary_heap A).

Lemma insert_all_correct l : forall h,
  heap_shape valid h ->
  Forall valid l ->
  size h + Z.of_nat (length l) <= MAX_ELEMS ->
  exists h',
    insert_all comparator l h = Done h' /\
    heap_shape valid h' /\
    size h' = size h + Z.of_nat (length l) /\
    live h' ≡ₚ l ++ live h /\
    (three_way_comparator comparator valid ->
     heap_ordered comparator (size h) (elems h) ->
     heap_ordered comparator (size h') (elems h')).
Proof.
  induction l as [|a l IH]; intros h Hsh Hval Hmax.
  - exists h. split; [reflexivity|]. split; [exact Hsh|].
    split; [cbn; lia|]. split; [reflexivity|]. auto.
  - cbn [length] in Hmax. apply Forall_cons in Hval as [Hva Hval].
    destruct (binary_heap_insert_correct comparator valid Hdef h a)
      as (h1 & Hrun & Hsz & Hsh1 & Hperm1 & Hord1); auto; try lia.
    destruct (IH h1) as (h' & Hrun' & Hsh' & Hsz' & Hperm' & Hord');
      auto; try lia.
    exists h'. cbn [insert_all]. rewrite Hrun, bind_Done. cbn [snd].
    split; [exact Hrun'|]. split; [exact Hsh'|].
    split; [cbn [length]; lia|]. split; [|auto].
    rewrite Hperm', Hperm1. cbn [app].
    symmetry. apply Permutation_middle.
Qed.

Lemma live_nil h : size h = 0 -> live h = [].
Proof. intros H. unfold live. rewrite H. reflexivity. Qed.

Lemma root_not_null h :
  heap_shape valid h -> 0 < size h -> elt (elems h) 0 <> NULL.
Proof. intros [Hs Hc Hl Hb Hv] Hpos. apply Hnn, Hv. lia. Qed.

Lemma root_le_live h :
  three_way_comparator comparator valid ->
  heap_shape valid h -> 0 < size h ->
  heap_ordered comparator (size h) (elems h) ->
  Forall (cmp_le comparator (elt (elems h) 0)) (live h).
Proof.
  intros Hcmp [Hs Hc Hl Hb Hv] Hpos Ho. unfold live.
  apply Forall_take_elt; [lia|].
  apply (heap_ordered_root comparator valid Hcmp); auto.
Qed.

Lemma pop_n_correct (m : nat) : forall h,
  heap_shape valid h ->
  Z.of_nat m <= size h ->
  exists rs h',
    pop_n comparator m h = Done (rs, h') /\
    heap_shape valid h' /\
    size h' = size h - Z.of_nat m /\
    length rs = m /\
    rs ++ live h' ≡ₚ live h.
Proof.
  induction m as [|m IH]; intros h Hsh Hk.
  - exists [], h. split; [reflexivity|]. split; [exact Hsh|].
    split; [lia|]. split; reflexivity.
  - destruct (binary_heap_pop_min_correct comparator valid Hdef h)
      as (h1 & Hrun & Hsz & Hsh1 & Hperm1 & _); auto; try lia.
    { apply root_not_null; auto; lia. }
    destruct (IH h1) as (rs & h' & Hrun' & Hsh' & Hsz' & Hlen' & Hperm');
      auto; try lia.
    exists (elt (elems h) 0 :: rs), h'.
    cbn [pop_n]. rewrite Hrun, bind_Done. cbn [snd fst].
    rewrite Hrun', bind_Done. cbn [snd fst].
    split; [reflexivity|]. split; [exact Hsh'|]. split; [lia|].
    split; [cbn [length]; lia|].
    cbn [app]. rewrite Hperm'. exact Hperm1.
Qed.

Lemma pop_until_empty_correct fuel : forall h,
  heap_shape valid h ->
  (Z.to_nat (size h) < fuel)%nat ->
  exists rs,
    pop_until_empty comparator fuel h = Done rs /\
    rs ≡ₚ live h /\
    (three_way_comparator comparator valid ->
     heap_ordered comparator (size h) (elems h) ->
     StronglySorted (cmp_le comparator) rs).
Proof.
  induction fuel as [|fuel IH]; intros h Hsh Hfuel; [lia|].
  cbn [pop_until_empty]. unfold binary_heap_size.
  destruct (Z.eqb_spec (size h) 0) as [H0|H0].
  - exists []. split; [reflexivity|].
    split; [rewrite live_nil by exact H0; reflexivity|].
    intros _ _. constructor.
  - assert (Hpos : 0 < size h) by (destruct Hsh; lia).
    destruct (binary_heap_pop_min_correct comparator valid Hdef h)
      as (h1 & Hrun & Hsz & Hsh1 & Hperm1 & Hord1); auto.
    { apply root_not_null; auto. }
    destruct (IH h1) as (rs & Hrun' & Hperm' & Hsorted'); auto; try lia.
    exists (elt (elems h) 0 :: rs).
    rewrite Hrun, bind_Done. cbn [snd fst]. rewrite Hrun', bind_Done.
    split; [reflexivity|].
    split; [rewrite Hperm'; exact Hperm1|].
    intros Hcmp Ho. constructor; [auto|].
    pose proof (root_le_live h Hcmp Hsh Hpos Ho) as Hroot.
    rewrite <- Hperm1 in Hroot. apply Forall_cons in Hroot as [_ Hroot].
    rewrite Hperm'. exact Hroot.
Qed.

(** Under a total order a multiset has one sorted arrangement. *)
Lemma sorted_Permutation_eq (l1 : list (ptr A)) : forall l2,
  total_order_comparator comparator valid ->
  Forall valid l1 ->
  StronglySorted (cmp_le comparator) l1 ->
  StronglySorted (cmp_le comparator) l2 ->
  l1 ≡ₚ l2 -> l1 = l2.
Proof.
  induction l1 as [|a l1 IH]; intros l2 Htot Hval Hs1 Hs2 Hperm.
  - apply Permutation_nil_l in Hperm. exact Hperm.
  - destruct l2 as [|b l2].
    { symmetry in Hperm. apply Permutation_nil_cons in Hperm. contradiction. }
    destruct Htot as [Hcmp Hanti].
    assert (Hval2 : Forall valid (b :: l2)) by (rewrite <- Hperm; exact Hval).
    apply StronglySorted_inv in Hs1 as [Hs1 Ha].
    apply StronglySorted_inv in Hs2 as [Hs2 Hb].
    apply Forall_cons in Hval as [Hva Hval].
    apply Forall_cons in Hval2 as [Hvb Hval2].
    assert (Hab : cmp_le comparator a b).
    { assert (Hin : b ∈ a :: l1) by (rewrite Hperm; left).
      apply elem_of_cons in Hin as [->|Hin].
      - apply (cmp_le_refl comparator valid Hcmp); auto.
      - rewrite Forall_forall in Ha. apply Ha. exact Hin. }
    assert (Hba : cmp_le comparator b a).
    { assert (Hin : a ∈ b :: l2) by (rewrite <- Hperm; left).
      apply elem_of_cons in Hin as [->|Hin].
      - apply (cmp_le_refl comparator valid Hcmp); auto.
      - rewrite Forall_forall in Hb. apply Hb. exact Hin. }
    assert (Heq : a = b).
    { apply Hanti; auto.
      destruct (twc_defined _ _ Hcmp a b Hva Hvb) as [c Hc].
      destruct c; [|contradiction|exact Hc].
      exfalso. apply Hba. apply (twc_flip _ _ Hcmp); auto. }
    subst b. f_equal. apply IH; auto.
    + split; auto.
    + apply Permutation_cons_inv in Hperm. exact Hperm.
Qed.

End Draining.

(** ** The comparator of the heap tests is a total order of the nodes *)

Lemma node_order_total : total_order_comparator node_order is_node.
Proof.
  split; [split|].
  - intros [[a]|] [[b]|] Ha Hb; try solve [exfalso; (apply Ha + apply Hb); reflexivity].
    unfold node_order, node_comparator. cbn.
    destruct (a <? b); [eauto|]. destruct (a >? b); eauto.
  - intros [[a]|] [[b]|] Ha Hb; try solve [exfalso; (apply Ha + apply Hb); reflexivity].
    unfold node_order, node_comparator. cbn.
    destruct (Z.ltb_spec a b), (Z.gtb_spec a b), (Z.ltb_spec b a),
      (Z.gtb_spec b a); split; intros Hx; try discriminate; try reflexivity; lia.
  - intros [[a]|] [[b]|] [[c]|] Ha Hb Hc;
      try solve [exfalso; (apply Ha + apply Hb + apply Hc); reflexivity].
    unfold cmp_le, node_order, node_comparator. cbn.
    destruct (Z.ltb_spec a b), (Z.gtb_spec a b), (Z.ltb_spec b c),
      (Z.gtb_spec b c), (Z.ltb_spec a c), (Z.gtb_spec a c);
      intros Hx Hy; try congruence; try lia.
  - intros [[a]|] [[b]|] Ha Hb; try solve [exfalso; (apply Ha + apply Hb); reflexivity].
    unfold node_order, node_comparator. cbn.
    destruct (Z.ltb_spec a b), (Z.gtb_spec a b); intros Hx; try discriminate.
    do 2 f_equal. lia.
Qed.

Lemma is_node_not_null (p : ptr node) : is_node p -> p <> NULL.
Proof. intros H. exact H. Qed.

(** ** A null element is never popped *)

Lemma null_first_order_total : total_order_comparator null_first_order any_ptr.
Proof.
  split; [split|].
  - intros [[a]|] [[b]|] _ _; cbn; eauto.
    destruct (a <? b); [eauto|]. destruct (a >? b); eauto.
  - intros [[a]|] [[b]|] _ _; cbn; try (split; intros Hx; congruence).
    destruct (Z.ltb_spec a b), (Z.gtb_spec a b), (Z.ltb_spec b a),
      (Z.gtb_spec b a); split; intros Hx; try discriminate; try reflexivity; lia.
  - intros [[a]|] [[b]|] [[c]|] _ _ _; unfold cmp_le; cbn;
      intros Hx Hy; try congruence.
    destruct (Z.ltb_spec a b), (Z.gtb_spec a b), (Z.ltb_spec b c),
      (Z.gtb_spec b c), (Z.ltb_spec a c), (Z.gtb_spec a c);
      try congruence; try lia.
  - intros [[a]|] [[b]|] _ _; cbn; intros Hx; try discriminate; try reflexivity.
    destruct (Z.ltb_spec a b), (Z.gtb_spec a b); try discriminate.
    do 2 f_equal. lia.
Qed.

Lemma insert_null_then_node :
  insert_all null_first_order [NULL; make_node 1] create_empty_heap
    = Done heap_null_root.
Proof. reflexivity. Qed.

Lemma pop_null_root :
  binary_heap_pop_min null_first_order heap_null_root
    = Done (NULL, heap_null_root).
Proof. reflexivity. Qed.

(** C4 as stated fails: [NULL] and a node inserted, then two pops, under a
    total order that accepts [NULL]: both pops return [NULL] and the node
    is never returned. *)
Lemma roundtrip_fails_with_null_element :
  total_order_comparator null_first_order any_ptr /\
  exists h rs h',
    insert_all null_first_order [NULL; make_node 1] create_empty_heap
      = Done h /\
    pop_n null_first_order 2 h = Done (rs, h') /\
    rs = [NULL; NULL] /\
    ~ rs ≡ₚ [NULL; make_node 1].
Proof.
  split; [exact null_first_order_total|].
  exists heap_null_root, [NULL; NULL], heap_null_root.
  split; [exact insert_null_then_node|]. split; [reflexivity|].
  split; [reflexivity|].
  intros Hperm.
  assert (Hin : make_node 1 ∈ [NULL; NULL : ptr node]).
  { rewrite Hperm. right. left. }
  apply elem_of_cons in Hin as [Hin|Hin]; [discriminate|].
  apply elem_of_cons in Hin as [Hin|Hin]; [discriminate|].
  inversion Hin.
Qed.

(** C3 as stated fails: after [NULL] and a node are inserted, under a total
    order that accepts [NULL], every pop returns [NULL] and removes
    nothing, so popping until the heap is empty does not end. *)
Lemma pops_never_end_with_null_element :
  total_order_comparator null_first_order any_ptr /\
  exists h,
    insert_all null_first_order [NULL; make_node 1] create_empty_heap
      = Done h /\
    binary_heap_pop_min null_first_order h = Done (NULL, h) /\
    forall fuel, pop_until_empty null_first_order fuel h = Fault FuelExhausted.
Proof.
  split; [exact null_first_order_total|].
  exists heap_null_root.
  split; [exact insert_null_then_node|]. split; [exact pop_null_root|].
  induction fuel as [|fuel IH]; [reflexivity|].
  cbn [pop_until_empty].
  change (binary_heap_size heap_null_root =? 0) with false. cbv iota.
  rewrite pop_null_root, bind_Done. cbn [fst snd]. rewrite IH. reflexivity.
Qed.

(** * The claims about the heap *)

(** C1: after any sequence of [binary_heap_insert] and
    [binary_heap_pop_min] from [create_empty_heap] (with a three-way
    comparator of a total preorder, valid elements, and at most [MAX_ELEMS]
    insertions), the sequence runs to its end and, at every index [i] with
    [0 < i < size], the comparator applied to the element at the parent
    index [(i - 1) / 2] and the element at [i] returns, and does not return
    [GREATER_THAN]. *)
Theorem heap_property_after_operations {A : Type}
    (comparator : ptr A -> ptr A -> outcome comparison_t)
    (valid : ptr A -> Prop) (ops : list (heap_op A)) :
  three_way_comparator comparator valid ->
  Forall valid (inserted ops) ->
  Z.of_nat (length (inserted ops)) <= MAX_ELEMS ->
  exists rs h,
    run_ops comparator ops create_empty_heap = Done (rs, h) /\
    forall i, 0 < i < binary_heap_size h ->
      exists p x c,
        binary_heap_get_parent_index i = Done ((i - 1) / 2) /\
        array_get (elems h) ((i - 1) / 2) = Done p /\
        array_get (elems h) i = Done x /\
        comparator p x = Done c /\
        c <> GREATER_THAN.
Proof.
  intros Hcmp Hval Hmax.
  destruct (run_ops_correct comparator valid (twc_defined _ _ Hcmp) ops
              create_empty_heap)
    as (rs & h & Hrun & Hsh & _ & Hord).
  - apply create_empty_heap_shape.
  - exact Hval.
  - cbn [create_empty_heap size]. lia.
  - exists rs, h. split; [exact Hrun|].
    specialize (Hord Hcmp (create_empty_heap_ordered comparator)).
    destruct Hsh as [Hs Hc Hl Hb Hv]. unfold binary_heap_size, MAX_ELEMS in *.
    intros i Hi.
    assert (Hvp : valid (elt (elems h) ((i - 1) / 2))) by (apply Hv; lia).
    assert (Hvi : valid (elt (elems h) i)) by (apply Hv; lia).
    destruct (twc_defined _ _ Hcmp _ _ Hvp Hvi) as [c Hc'].
    exists (elt (elems h) ((i - 1) / 2)), (elt (elems h) i), c.
    split.
    { rewrite parent_index_Done by (unfold INT_MAX; lia). f_equal. lia. }
    split; [apply array_get_elt; lia|].
    split; [apply array_get_elt; lia|].
    split; [exact Hc'|].
    intros ->. exact (Hord i Hi Hc').
Qed.

Lemma heap_property_after_operations_witness :
  exists rs h,
    run_ops node_order
      [OpInsert (make_node 3); OpInsert (make_node 1); OpInsert (make_node 2);
       OpPopMin; OpInsert (make_node 0)]
      create_empty_heap = Done (rs, h) /\
    forall i, 0 < i < binary_heap_size h ->
      exists p x c,
        binary_heap_get_parent_index i = Done ((i - 1) / 2) /\
        array_get (elems h) ((i - 1) / 2) = Done p /\
        array_get (elems h) i = Done x /\
        node_order p x = Done c /\
        c <> GREATER_THAN.
Proof.
  apply (heap_property_after_operations node_order is_node).
  - exact (toc_three_way _ _ node_order_total).
  - repeat constructor; discriminate.
  - vm_compute. discriminate.
Defined.

(** C5: after [n] insertions and [m] pops that returned an element, in any
    order from [create_empty_heap], [binary_heap_size] is [n - m] (and
    [m <= n]); and on a heap of size 0 [binary_heap_pop_min] and
    [binary_heap_min] return [NULL], the pop leaving the heap, its size and
    its array as they were. *)
Theorem size_accounting {A : Type}
    (comparator : ptr A -> ptr A -> outcome comparison_t)
    (valid : ptr A -> Prop) (ops : list (heap_op A)) :
  cmp_defined comparator valid ->
  Forall valid (inserted ops) ->
  Z.of_nat (length (inserted ops)) <= MAX_ELEMS ->
  (exists rs h,
     run_ops comparator ops create_empty_heap = Done (rs, h) /\
     (length (successful rs) <= length (inserted ops))%nat /\
     binary_heap_size h =
       Z.of_nat (length (inserted ops)) - Z.of_nat (length (successful rs)))
  /\
  (forall h0 : binary_heap A, binary_heap_size h0 = 0 ->
     binary_heap_pop_min comparator h0 = Done (NULL, h0) /\
     binary_heap_min h0 = Done NULL).
Proof.
  intros Hdef Hval Hmax. split.
  - destruct (run_ops_correct comparator valid Hdef ops create_empty_heap)
      as (rs & h & Hrun & Hsh & Hsz & _).
    + apply create_empty_heap_shape.
    + exact Hval.
    + cbn [create_empty_heap size]. lia.
    + exists rs, h. split; [exact Hrun|].
      destruct Hsh as [Hs _ _ _ _]. unfold binary_heap_size.
      cbn [create_empty_heap size] in Hsz. lia.
  - intros h0 H0. split.
    + apply binary_heap_pop_min_empty. exact H0.
    + apply binary_heap_min_empty. exact H0.
Qed.

Lemma size_accounting_witness :
  (exists rs h,
     run_ops node_order
       [OpPopMin; OpInsert (make_node 5); OpInsert (make_node 4); OpPopMin]
       create_empty_heap = Done (rs, h) /\
     (length (successful rs) <= 2)%nat /\
     binary_heap_size h = 2 - Z.of_nat (length (successful rs)))
  /\
  (forall h0 : binary_heap node, binary_heap_size h0 = 0 ->
     binary_heap_pop_min node_order h0 = Done (NULL, h0) /\
     binary_heap_min h0 = Done NULL).
Proof.
  apply (size_accounting node_order is_node
           [OpPopMin; OpInsert (make_node 5); OpInsert (make_node 4); OpPopMin]).
  - exact (twc_defined _ _ (toc_three_way _ _ node_order_total)).
  - repeat constructor; discriminate.
  - vm_compute. discriminate.
Defined.

(** C4, amended: the elements of [l], none of them [NULL], inserted into
    a fresh heap and then [length l] calls of [binary_heap_pop_min]: the
    calls return the elements of [l], each as often as it occurs in [l],
    and the heap is empty again. *)
Theorem insert_then_pop_roundtrip {A : Type}
    (comparator : ptr A -> ptr A -> outcome comparison_t)
    (valid : ptr A -> Prop) (l : list (ptr A)) :
  cmp_defined comparator valid ->
  (forall x, valid x -> x <> NULL) ->
  Forall valid l ->
  Z.of_nat (length l) <= MAX_ELEMS ->
  exists h rs h',
    insert_all comparator l create_empty_heap = Done h /\
    pop_n comparator (length l) h = Done (rs, h') /\
    rs ≡ₚ l /\
    binary_heap_size h' = 0.
Proof.
  intros Hdef Hnn Hval Hmax.
  destruct (insert_all_correct comparator valid Hdef l create_empty_heap)
    as (h & Hins & Hsh & Hsz & Hperm & _).
  { apply create_empty_heap_shape. }
  { exact Hval. }
  { cbn [create_empty_heap size]. lia. }
  cbn [create_empty_heap size] in Hsz.
  destruct (pop_n_correct comparator valid Hdef Hnn (length l) h)
    as (rs & h' & Hpop & Hsh' & Hsz' & Hlen & Hperm'); [exact Hsh | lia |].
  exists h, rs, h'. split; [exact Hins|]. split; [exact Hpop|].
  split; [|unfold binary_heap_size; lia].
  rewrite (live_nil h') in Hperm' by lia.
  rewrite app_nil_r in Hperm'. rewrite Hperm', Hperm.
  rewrite (live_nil create_empty_heap) by reflexivity.
  rewrite app_nil_r. reflexivity.
Qed.

Lemma insert_then_pop_roundtrip_witness :
  exists h rs h',
    insert_all node_order
      [make_node 5; make_node 4; make_node 5; make_node 1]
      create_empty_heap = Done h /\
    pop_n node_order 4 h = Done (rs, h') /\
    rs ≡ₚ [make_node 5; make_node 4; make_node 5; make_node 1] /\
    binary_heap_size h' = 0.
Proof.
  apply (insert_then_pop_roundtrip node_order is_node
           [make_node 5; make_node 4; make_node 5; make_node 1]).
  - exact (twc_defined _ _ (toc_three_way _ _ node_order_total)).
  - exact is_node_not_null.
  - repeat constructor; discriminate.
  - vm_compute. discriminate.
Defined.

(** C3, amended: with a comparator of a total order, the elements of
    [l], none of them [NULL], inserted into a fresh heap and popped until
    the heap is empty come out in non-decreasing order (no popped element
    is greater than a later one), and they are the elements of [l];
    inserting them in another order [l'] gives the same sequence of
    pops. *)
Theorem pops_sorted_whatever_the_insertion_order {A : Type}
    (comparator : ptr A -> ptr A -> outcome comparison_t)
    (valid : ptr A -> Prop) (l l' : list (ptr A)) :
  total_order_comparator comparator valid ->
  (forall x, valid x -> x <> NULL) ->
  Forall valid l ->
  Z.of_nat (length l) <= MAX_ELEMS ->
  l ≡ₚ l' ->
  exists h h' rs,
    insert_all comparator l create_empty_heap = Done h /\
    insert_all comparator l' create_empty_heap = Done h' /\
    pop_until_empty comparator (S (length l)) h = Done rs /\
    pop_until_empty comparator (S (length l')) h' = Done rs /\
    rs ≡ₚ l /\
    StronglySorted (cmp_le comparator) rs.
Proof.
  intros Htot Hnn Hval Hmax Hll.
  pose proof (toc_three_way _ _ Htot) as Hcmp.
  pose proof (twc_defined _ _ Hcmp) as Hdef.
  assert (Hdrain : forall m : list (ptr A),
            Forall valid m -> Z.of_nat (length m) <= MAX_ELEMS ->
            exists h rs,
              insert_all comparator m create_empty_heap = Done h /\
              pop_until_empty comparator (S (length m)) h = Done rs /\
              rs ≡ₚ m /\ StronglySorted (cmp_le comparator) rs).
  { intros m Hvm Hm.
    destruct (insert_all_correct comparator valid Hdef m create_empty_heap)
      as (h & Hins & Hsh & Hsz & Hperm & Hord).
    { apply create_empty_heap_shape. }
    { exact Hvm. }
    { cbn [create_empty_heap size]. lia. }
    cbn [create_empty_heap size] in Hsz.
    destruct (pop_until_empty_correct comparator valid Hdef Hnn
                (S (length m)) h Hsh)
      as (rs & Hpop & Hperm' & Hsorted); [lia|].
    exists h, rs. split; [exact Hins|]. split; [exact Hpop|]. split.
    - rewrite Hperm', Hperm.
      rewrite (live_nil create_empty_heap) by reflexivity.
      rewrite app_nil_r. reflexivity.
    - apply Hsorted; [exact Hcmp|].
      apply Hord; [exact Hcmp|]. apply create_empty_heap_ordered. }
  destruct (Hdrain l Hval Hmax) as (h & rs & Hins & Hpop & Hperm & Hsorted).
  destruct (Hdrain l') as (h' & rs' & Hins' & Hpop' & Hperm' & Hsorted').
  { rewrite <- Hll. exact Hval. }
  { rewrite <- Hll. exact Hmax. }
  assert (Heq : rs = rs').
  { apply (sorted_Permutation_eq comparator valid rs rs' Htot); auto.
    - rewrite Hperm. exact Hval.
    - rewrite Hperm, Hperm'. exact Hll. }
  subst rs'. exists h, h', rs. auto 10.
Qed.

Lemma pops_sorted_whatever_the_insertion_order_witness :
  exists h h' rs,
    insert_all node_order
      [make_node 3; make_node 1; make_node 4; make_node 2]
      create_empty_heap = Done h /\
    insert_all node_order
      [make_node 1; make_node 4; make_node 2; make_node 3]
      create_empty_heap = Done h' /\
    pop_until_empty node_order 5 h = Done rs /\
    pop_until_empty node_order 5 h' = Done rs /\
    rs ≡ₚ [make_node 3; make_node 1; make_node 4; make_node 2] /\
    StronglySorted (cmp_le node_order) rs.
Proof.
  apply (pops_sorted_whatever_the_insertion_order node_order is_node
           [make_node 3; make_node 1; make_node 4; make_node 2]
           [make_node 1; make_node 4; make_node 2; make_node 3]).
  - exact node_order_total.
  - exact is_node_not_null.
  - repeat constructor; discriminate.
  - vm_compute. discriminate.
  - change ([make_node 3] ++ [make_node 1; make_node 4; make_node 2]
            ≡ₚ [make_node 1; make_node 4; make_node 2] ++ [make_node 3]).
    apply Permutation_app_comm.
Defined.

(** C9: one iteration of the sift-down of [binary_heap_pop_min] at a node
    [index] of a heap of [sz] elements. With both children present: when
    the node compares [GREATER_THAN] to a child, it is exchanged with a
    child, the left one when the comparison of the left with the right
    child gives [LESS_THAN] or [EQUAL_TO], the right one when it gives
    [GREATER_THAN] (the right child is then the strictly smaller); when it
    compares [GREATER_THAN] to neither child, nothing is exchanged and the
    loop ends. With the left child alone present, the node is exchanged
    with it exactly when it compares [GREATER_THAN] to it. (The right
    child, at [2 * index + 2], is never present without the left one.) *)
Theorem sift_down_step_choice {A : Type}
    (comparator : ptr A -> ptr A -> outcome comparison_t)
    (valid : ptr A -> Prop) (es : list (ptr A)) (index sz : Z) (b : bool) :
  three_way_comparator comparator valid ->
  0 <= index -> 2 * index + 1 < sz ->
  sz <= Z.of_nat (length es) -> sz < MAX_ELEMS ->
  (forall i, 0 <= i < sz -> valid (elt es i)) ->
  let node := elt es index in
  let l := elt es (2 * index + 1) in
  let r := elt es (2 * index + 2) in
  let step := sift_body comparator sz (sift_at es index b) in
  (2 * index + 2 < sz ->
     (comparator node l = Done GREATER_THAN \/
      comparator node r = Done GREATER_THAN ->
      (step = Done (sift_moved es index (2 * index + 1)) /\
       (comparator l r = Done LESS_THAN \/ comparator l r = Done EQUAL_TO))
      \/
      (step = Done (sift_moved es index (2 * index + 2)) /\
       comparator l r = Done GREATER_THAN /\
       comparator r l = Done LESS_THAN))
     /\
     (comparator node l <> Done GREATER_THAN ->
      comparator node r <> Done GREATER_THAN ->
      step = Done (sift_stopped es index) /\
      sift_condition sz (sift_stopped es index) = false))
  /\
  (sz <= 2 * index + 2 ->
     (comparator node l = Done GREATER_THAN ->
      step = Done (sift_moved es index (2 * index + 1)))
     /\
     (comparator node l <> Done GREATER_THAN ->
      step = Done (sift_stopped es index) /\
      sift_condition sz (sift_stopped es index) = false)).
Proof.
  intros Hcmp Hi Hl Hn Hmax Hv node l r step.
  pose proof (twc_defined _ _ Hcmp) as Hdef.
  assert (Hvi : valid node) by (apply Hv; lia).
  assert (Hvl : valid l) by (apply Hv; lia).
  assert (Hstop : sift_condition sz (sift_stopped es index) = false).
  { unfold sift_condition, sift_stopped, sift_at.
    cbn [st_smaller_than_children]. apply andb_false_r. }
  destruct (Hdef _ _ Hvi Hvl) as [lc Hlc].
  split.
  - intros Hr.
    assert (Hvr : valid r) by (apply Hv; lia).
    destruct (Hdef _ _ Hvi Hvr) as [rc Hrc].
    destruct (Hdef _ _ Hvl Hvr) as [cc Hcc].
    assert (Hstep := sift_body_both comparator es index sz b lc rc cc
                       Hi Hr Hn Hmax Hlc Hrc Hcc).
    fold step in Hstep. fold node l r in Hlc, Hrc, Hcc.
    assert (Hflip : cc = GREATER_THAN -> comparator r l = Done LESS_THAN).
    { intros ->. apply (twc_flip _ _ Hcmp); auto. }
    assert (Hle_l : lc <> GREATER_THAN -> cmp_le comparator node l).
    { intros Hne Hgt. rewrite Hlc in Hgt. congruence. }
    assert (Hle_r : rc <> GREATER_THAN -> cmp_le comparator node r).
    { intros Hne Hgt. rewrite Hrc in Hgt. congruence. }
    assert (Hge_l : lc = GREATER_THAN -> cmp_le comparator l node).
    { intros ->. apply (cmp_le_of_GT comparator valid Hcmp); auto. }
    assert (Hge_r : rc = GREATER_THAN -> cmp_le comparator r node).
    { intros ->. apply (cmp_le_of_GT comparator valid Hcmp); auto. }
    assert (Hleft : cmp_le comparator l r ->
              comparator l r = Done LESS_THAN \/
              comparator l r = Done EQUAL_TO).
    { intros Hlr. unfold cmp_le in Hlr. rewrite Hcc in Hlr |- *.
      destruct cc; auto. exfalso. apply Hlr. reflexivity. }
    assert (Hright : ~ cmp_le comparator l r ->
              comparator l r = Done GREATER_THAN /\
              comparator r l = Done LESS_THAN).
    { intros Hlr.
      pose proof (cmp_GT_of_not_le comparator valid Hcmp l r Hvl Hvr Hlr) as G.
      split; [exact G|]. apply (twc_flip _ _ Hcmp); auto. }
    split.
    + intros Hgt.
      destruct lc, rc;
        try (destruct Hgt as [Hgt|Hgt]; rewrite ?Hlc, ?Hrc in Hgt; discriminate);
        cbn [comparison_eqb andb orb] in Hstep.
      * right. split; [exact Hstep|]. apply Hright. intros Hlr.
        apply (twc_trans _ _ Hcmp node l r); auto;
          try (apply Hle_l; discriminate).
      * left. split; [exact Hstep|]. apply Hleft.
        apply (twc_trans _ _ Hcmp l node r); auto;
          try (apply Hle_r; discriminate).
      * destruct cc; cbn [comparison_eqb orb] in Hstep.
        -- left. split; [exact Hstep|]. left. exact Hcc.
        -- right. split; [exact Hstep|]. split; [exact Hcc|]. auto.
        -- left. split; [exact Hstep|]. right. exact Hcc.
      * left. split; [exact Hstep|]. apply Hleft.
        apply (twc_trans _ _ Hcmp l node r); auto;
          try (apply Hle_r; discriminate).
      * right. split; [exact Hstep|]. apply Hright. intros Hlr.
        apply (twc_trans _ _ Hcmp node l r); auto;
          try (apply Hle_l; discriminate).
    + intros Hnl Hnr. rewrite Hlc in Hnl. rewrite Hrc in Hnr.
      destruct lc, rc; try congruence;
        cbn [comparison_eqb andb orb] in Hstep; split; auto.
  - intros Hr.
    assert (Hstep := sift_body_left_only comparator es index sz b lc
                       Hi Hl Hr Hn Hmax Hlc).
    fold step in Hstep. fold node l in Hlc.
    split.
    + intros Hgt. rewrite Hlc in Hgt. injection Hgt as ->. exact Hstep.
    + intros Hnl. rewrite Hlc in Hnl.
      destruct lc; try congruence; cbn [comparison_eqb] in Hstep; split; auto.
Qed.

Lemma sift_down_step_choice_witness :
  let es := [make_node 9; make_node 4; make_node 4] in
  sift_body node_order 3 (sift_at es 0 true) = Done (sift_moved es 0 1).
Proof.
  intros es.
  destruct (sift_down_step_choice node_order is_node es 0 3 true) as [Hboth _].
  - exact (toc_three_way _ _ node_order_total).
  - lia.
  - lia.
  - vm_compute. discriminate.
  - vm_compute. reflexivity.
  - intros i Hi.
    assert (Hcases : i = 0 \/ i = 1 \/ i = 2) by lia.
    destruct Hcases as [->|[->| ->]]; discriminate.
  - destruct Hboth as [Hswap _]; [lia|].
    destruct Hswap as [[Hstep _]|[_ [Hgt _]]].
    + left. reflexivity.
    + exact Hstep.
    + discriminate Hgt.
Defined.

(** ** The built-in unsigned time is a total preorder *)

Lemma uint_time_order_three_way {C : Type} :
  three_way_comparator (time_order (uint_time_comparator (C := C))) is_time.
Proof.
  split.
  - intros [[a]|] [[b]|] Ha Hb; try solve [exfalso; (apply Ha + apply Hb); reflexivity].
    unfold time_order, uint_time_comparator. cbn.
    destruct (a <? b); [eauto|]. destruct (a >? b); eauto.
  - intros [[a]|] [[b]|] Ha Hb; try solve [exfalso; (apply Ha + apply Hb); reflexivity].
    unfold time_order, uint_time_comparator. cbn.
    destruct (Z.ltb_spec a b), (Z.gtb_spec a b), (Z.ltb_spec b a),
      (Z.gtb_spec b a); split; intros Hx; try discriminate; try reflexivity; lia.
  - intros [[a]|] [[b]|] [[c]|] Ha Hb Hc;
      try solve [exfalso; (apply Ha + apply Hb + apply Hc); reflexivity].
    unfold cmp_le, time_order, uint_time_comparator. cbn.
    destruct (Z.ltb_spec a b), (Z.gtb_spec a b), (Z.ltb_spec b c),
      (Z.gtb_spec b c), (Z.ltb_spec a c), (Z.gtb_spec a c);
      intros Hx Hy; try congruence; try lia.
Qed.

(** * The claims about the event queue *)

(** C2 (the code does otherwise): a queue made by
    [create_generic_event_queue] takes one event; the enqueue of a second
    one is undefined, whatever the time comparator, the payloads and the
    times. The sift-up of [binary_heap_insert] compares the two events by
    [heap->comparator(x, y)], and [event_comparator] reads the time
    comparator through its third parameter, the queue, for which that call
    passes nothing. No sequence of two or more enqueues reaches a
    dequeue. *)
Theorem enqueue_of_a_second_event_is_undefined {D T C : Type}
    (tc : func_comparator_t T C)
    (free_data : func_free_t D C) (free_time : func_free_t T C)
    (free_data_arg free_time_arg : ptr C)
    (d1 d2 : ptr D) (t1 t2 : T) (l : list (ptr D * ptr T)) (fuel : nat) :
  let q0 := create_generic_event_queue tc free_data free_time
              free_data_arg free_time_arg in
  (exists q1,
     event_queue_enqueue q0 d1 (Some t1) = Done (1, q1) /\
     event_queue_size q1 = 1 /\
     event_queue_enqueue q1 d2 (Some t2) = Fault UndefinedBehaviour) /\
  (q ← enqueue_all ((d1, Some t1) :: (d2, Some t2) :: l) q0;
   dequeue_until_empty fuel q) = Fault UndefinedBehaviour.
Proof.
  intros q0. split.
  - eexists. split; [reflexivity|]. split; reflexivity.
  - reflexivity.
Qed.

(** C6 (the code does otherwise): on a queue of size 0
    [event_queue_dequeue] and [event_queue_peek] read the fields of the
    null pointer the heap returned. *)
Theorem empty_queue_access_is_undefined {D T C : Type}
    (tc : func_comparator_t T C)
    (free_data : func_free_t D C) (free_time : func_free_t T C)
    (free_data_arg free_time_arg : ptr C) :
  let q := create_generic_event_queue tc free_data free_time
             free_data_arg free_time_arg in
  event_queue_size q = 0 /\
  event_queue_dequeue q = Fault UndefinedBehaviour /\
  event_queue_peek q = Fault UndefinedBehaviour.
Proof. repeat split. Qed.

(** C7 (the code does otherwise): an event enqueued alone with the double
    time 1.5 is dequeued by [event_queue_dequeue_double_time] with the
    time 1.0. *)
Theorem dequeue_double_time_truncates {D C : Type}
    (free_data : func_free_t D C) (free_data_arg : ptr C) (payload : ptr D) :
  (q ← event_queue_enqueue_double_time
         (create_queue_double_time free_data free_data_arg) payload double_1_5;
   r ← event_queue_dequeue_double_time q;
   Done (fst r))
  = Done (double_1_0, payload).
Proof. reflexivity. Qed.

(** C8 (the code does otherwise): heap.c passes no context. For the heap
    of a queue, created with [event_comparator] and [event_free]: the
    comparison of two events is that of their times when
    [event_comparator] has the queue for its third argument, and it is
    undefined as heap.c calls it, with the two events alone, from the
    sift-up of [binary_heap_insert] (the insertion of a second event) and
    from the sift-down of [binary_heap_pop_min] (on a heap of three
    events); [free_heap] calls the destructor with the element alone, and
    [event_free], which reads the destructors of the payload and of the
    time through its second parameter, is undefined so called. *)
Theorem heap_calls_pass_no_context {D T C : Type}
    (tc : func_comparator_t T C)
    (free_data : func_free_t D C) (free_time : func_free_t T C)
    (free_data_arg free_time_arg : ptr C)
    (d1 d2 d3 : ptr D) (t1 t2 t3 : T) :
  let q := create_generic_event_queue tc free_data free_time
             free_data_arg free_time_arg in
  let e1 := event_of (d1, Some t1) in
  let e2 := event_of (d2, Some t2) in
  let e3 := event_of (d3, Some t3) in
  let three := {| elems := [e1; e2; e3] ++ replicate 13 NULL;
                  size := 3;
                  capacity := 16 |} in
  (event_comparator e2 e1 (Some q) = tc (Some t2) (Some t1) NULL /\
   comparator_call (event_comparator (C := C)) e2 e1
     = Fault UndefinedBehaviour /\
   (r ← binary_heap_insert (comparator_call (event_comparator (C := C)))
          (heap q) e1;
    binary_heap_insert (comparator_call (event_comparator (C := C)))
      (snd r) e2) = Fault UndefinedBehaviour /\
   binary_heap_pop_min (comparator_call (event_comparator (C := C))) three
     = Fault UndefinedBehaviour)
  /\
  (free_heap three = Done [[e1]; [e2]; [e3]] /\
   event_free e1 (Some q)
     = (_ ← free_data d1 free_data_arg; free_time (Some t1) free_time_arg) /\
   free_elem_call (event_free (C := C)) e1 = Fault UndefinedBehaviour /\
   free_heap_with (free_elem_call (event_free (C := C))) three
     = Fault UndefinedBehaviour).
Proof.
  intros q e1 e2 e3 three. split.
  - split; [reflexivity|]. split; [reflexivity|]. split; reflexivity.
  - split; [reflexivity|]. split; [reflexivity|]. split; reflexivity.
Qed.

(** C10: [double_time_comparator] returns [EQUAL_TO] when the time of
    either argument is a NaN; so does [event_comparator] with a queue made
    by [create_queue_double_time] for its context, whatever the heap holds,
    for an event whose time is a NaN against every other event; and the
    comparator is no total preorder of the double times: 2.0 and 1.0 both
    compare [EQUAL_TO] with a NaN, and 2.0 is [GREATER_THAN] 1.0. *)
Theorem double_time_comparator_nan {D C : Type} :
  (forall (x : spec_float) (arg : ptr C),
     double_time_comparator (create_double_time S754_nan)
       (create_double_time x) arg = Done EQUAL_TO /\
     double_time_comparator (create_double_time x)
       (create_double_time S754_nan) arg = Done EQUAL_TO)
  /\
  (forall (free_data : func_free_t D C) (free_data_arg : ptr C)
          (h : binary_heap (event D double_time))
          (d1 d2 : ptr D) (x : spec_float),
     let q := with_heap (create_queue_double_time free_data free_data_arg) h in
     let nan_event := event_of (d1, create_double_time S754_nan) in
     let other := event_of (d2, create_double_time x) in
     event_comparator nan_event other (Some q) = Done EQUAL_TO /\
     event_comparator other nan_event (Some q) = Done EQUAL_TO)
  /\
  ~ three_way_comparator
      (time_order (double_time_comparator (C := C))) is_time.
Proof.
  assert (Hnan : forall (x : spec_float) (arg : ptr C),
     double_time_comparator (create_double_time S754_nan)
       (create_double_time x) arg = Done EQUAL_TO /\
     double_time_comparator (create_double_time x)
       (create_double_time S754_nan) arg = Done EQUAL_TO).
  { intros x arg. split; destruct x; reflexivity. }
  split; [exact Hnan|]. split.
  - intros free_data free_data_arg h d1 d2 x q nan_event other.
    split; apply (Hnan x NULL).
  - intros [_ _ Htrans].
    apply (Htrans (create_double_time double_2_0)
             (create_double_time S754_nan)
             (create_double_time double_1_0)); try discriminate.
    reflexivity.
Qed.

(** * The index arithmetic of the heap *)

(** X1: the child indices of a node [index] of [int] range. The left child
    is [2 * index + 1] up to [index = 2^30 - 1] and the right child
    [2 * index + 2] up to [index = 2^30 - 2]; beyond, the [int] arithmetic
    overflows. The parent index of either child is [index] again. *)
Theorem child_indices_and_their_parent (index : Z) :
  0 <= index <= INT_MAX ->
  binary_heap_get_left_child_index index =
    (if index <=? 2 ^ 30 - 1 then Done (2 * index + 1)
     else Fault UndefinedBehaviour) /\
  binary_heap_get_right_child_index index =
    (if index <=? 2 ^ 30 - 2 then Done (2 * index + 2)
     else Fault UndefinedBehaviour) /\
  (forall child,
     binary_heap_get_left_child_index index = Done child \/
     binary_heap_get_right_child_index index = Done child ->
     binary_heap_get_parent_index child = Done index).
Proof.
  intros Hi. unfold INT_MAX in Hi.
  assert (Hl : binary_heap_get_left_child_index index =
                 (if index <=? 2 ^ 30 - 1 then Done (2 * index + 1)
                  else Fault UndefinedBehaviour)).
  { unfold binary_heap_get_left_child_index, int_arith, INT_MIN, INT_MAX.
    destruct (Z.leb_spec index (2 ^ 30 - 1)).
    - rewrite (proj2 (Z.leb_le _ (2 * index))) by lia.
      rewrite (proj2 (Z.leb_le (2 * index) _)) by lia.
      cbn [andb]. rewrite bind_Done.
      rewrite (proj2 (Z.leb_le _ (2 * index + 1))) by lia.
      rewrite (proj2 (Z.leb_le (2 * index + 1) _)) by lia.
      reflexivity.
    - rewrite (proj2 (Z.leb_gt (2 * index) _)) by lia.
      rewrite andb_false_r. reflexivity. }
  assert (Hr : binary_heap_get_right_child_index index =
                 (if index <=? 2 ^ 30 - 2 then Done (2 * index + 2)
                  else Fault UndefinedBehaviour)).
  { unfold binary_heap_get_right_child_index, int_arith, INT_MIN, INT_MAX.
    destruct (Z.leb_spec index (2 ^ 30 - 2)).
    - rewrite (proj2 (Z.leb_le _ (2 * index))) by lia.
      rewrite (proj2 (Z.leb_le (2 * index) _)) by lia.
      cbn [andb]. rewrite bind_Done.
      rewrite (proj2 (Z.leb_le _ (2 * index + 2))) by lia.
      rewrite (proj2 (Z.leb_le (2 * index + 2) _)) by lia.
      reflexivity.
    - destruct (Z.leb_spec (2 * index) (2 ^ 31 - 1)).
      + rewrite (proj2 (Z.leb_le _ (2 * index))) by lia.
        cbn [andb]. rewrite bind_Done.
        rewrite (proj2 (Z.leb_gt (2 * index + 2) _)) by lia.
        rewrite andb_false_r. reflexivity.
      + rewrite andb_false_r. reflexivity. }
  split; [exact Hl|]. split; [exact Hr|].
  intros child [Hc|Hc].
  - rewrite Hl in Hc. destruct (Z.leb_spec index (2 ^ 30 - 1)); [|discriminate].
    injection Hc as <-.
    rewrite parent_index_Done by (unfold INT_MAX; lia). f_equal. lia.
  - rewrite Hr in Hc. destruct (Z.leb_spec index (2 ^ 30 - 2)); [|discriminate].
    injection Hc as <-.
    rewrite parent_index_Done by (unfold INT_MAX; lia). f_equal. lia.
Qed.

Lemma child_indices_and_their_parent_witness :
  binary_heap_get_left_child_index 3 =
    (if 3 <=? 2 ^ 30 - 1 then Done (2 * 3 + 1)
     else Fault UndefinedBehaviour) /\
  binary_heap_get_right_child_index 3 =
    (if 3 <=? 2 ^ 30 - 2 then Done (2 * 3 + 2)
     else Fault UndefinedBehaviour) /\
  (forall child,
     binary_heap_get_left_child_index 3 = Done child \/
     binary_heap_get_right_child_index 3 = Done child ->
     binary_heap_get_parent_index child = Done 3).
Proof. apply (child_indices_and_their_parent 3). vm_compute. split; discriminate. Defined.

(** X2: the parent index of a node [index] of [int] range. The root is its
    own parent: the index returned for 0 is 0, and -1 is returned for no
    index of the array, so the assertion of the sift-up holds. The parent
    of another node is a smaller index, of which the node is the left or
    the right child. *)
Theorem parent_index_of_a_node (index : Z) :
  0 <= index <= INT_MAX ->
  exists parent,
    binary_heap_get_parent_index index = Done parent /\
    assert ((index =? 0) || negb (parent =? -1)) = Done tt /\
    (index = 0 -> parent = 0) /\
    (0 < index ->
     0 <= parent < index /\
     (binary_heap_get_left_child_index parent = Done index \/
      binary_heap_get_right_child_index parent = Done index)).
Proof.
  intros Hi. exists ((index - 1) ÷ 2).
  split; [apply parent_index_Done; exact Hi|].
  unfold INT_MAX in Hi.
  split.
  { destruct (Z.eqb_spec index 0); [reflexivity|].
    destruct (Z.eqb_spec ((index - 1) ÷ 2) (-1)); [lia|reflexivity]. }
  split; [intros ->; reflexivity|].
  intros Hpos. split; [lia|].
  destruct (Z.eq_dec (index mod 2) 1) as [Hodd|Heven].
  - left. rewrite left_child_index_Done by (unfold MAX_ELEMS; lia).
    f_equal. lia.
  - right. rewrite right_child_index_Done by (unfold MAX_ELEMS; lia).
    f_equal. lia.
Qed.

Lemma parent_index_of_a_node_witness :
  exists parent,
    binary_heap_get_parent_index 6 = Done parent /\
    assert ((6 =? 0) || negb (parent =? -1)) = Done tt /\
    (6 = 0 -> parent = 0) /\
    (0 < 6 ->
     0 <= parent < 6 /\
     (binary_heap_get_left_child_index parent = Done 6 \/
      binary_heap_get_right_child_index parent = Done 6)).
Proof. apply (parent_index_of_a_node 6). vm_compute. split; discriminate. Defined.

(** * Runs of heap operations: what they keep *)

Section RunFacts.
Context {A : Type}.
Variable comparator : ptr A -> ptr A -> outcome comparison_t.
Variable valid : ptr A -> Prop.
Hypothesis Hdef : cmp_defined comparator valid.
Implicit Types (es : list (ptr A)) (i j k n : Z) (h : binary_heap A).

Lemma binary_heap_insert_capacity h elem (r : Z) h' :
  binary_heap_insert comparator h elem = Done (r, h') ->
  capacity h' =
    if size h =? capacity h then to_uint (2 * capacity h) else capacity h.
Proof.
  unfold binary_heap_insert. intros H.
  apply bind_Done_inv in H as (u & _ & H).
  apply bind_Done_inv in H as (es & _ & H).
  apply bind_Done_inv in H as (h3 & Hb & H).
  injection H as _ <-.
  unfold binary_heap_bubble_last_element in Hb.
  apply bind_Done_inv in Hb as (p & _ & Hb).
  apply bind_Done_inv in Hb as (u' & _ & Hb).
  apply bind_Done_inv in Hb as (es' & _ & Hb).
  injection Hb as <-. cbn [capacity].
  destruct (size h =? capacity h); reflexivity.
Qed.

Lemma binary_heap_pop_min_capacity h (r : ptr A) h' :
  binary_heap_pop_min comparator h = Done (r, h') ->
  capacity h' = capacity h.
Proof.
  unfold binary_heap_pop_min. intros H.
  apply bind_Done_inv in H as (m & _ & H).
  destruct (is_null m).
  { injection H as _ <-. reflexivity. }
  apply bind_Done_inv in H as (last & _ & H).
  apply bind_Done_inv in H as (es1 & _ & H).
  apply bind_Done_inv in H as (es2 & _ & H).
  apply bind_Done_inv in H as (l & _ & H).
  apply bind_Done_inv in H as (r' & _ & H).
  apply bind_Done_inv in H as (st & _ & H).
  injection H as _ <-. reflexivity.
Qed.

Lemma live_valid h : heap_shape valid h -> Forall valid (live h).
Proof.
  intros [Hs Hc Hl Hb Hv]. unfold live. apply Forall_take_elt; [lia|exact Hv].
Qed.

Lemma root_in_live h :
  heap_shape valid h -> 0 < size h -> elt (elems h) 0 ∈ live h.
Proof.
  intros [Hs Hc Hl Hb Hv] Hpos. unfold live.
  apply (list_elem_of_lookup_2 _ 0%nat).
  rewrite lookup_take_lt by lia. apply (lookup_elt (elems h) 0). lia.
Qed.

(** A pop on any heap of the right shape: the element it returns, if any,
    is the one that leaves the heap. *)
Lemma binary_heap_pop_min_any h :
  heap_shape valid h ->
  exists r h1,
    binary_heap_pop_min comparator h = Done (r, h1) /\
    binary_heap_min h = Done r /\
    heap_shape valid h1 /\
    successful [r] ++ live h1 ≡ₚ live h /\
    size h1 = size h - Z.of_nat (length (successful [r])) /\
    (three_way_comparator comparator valid ->
     heap_ordered comparator (size h) (elems h) ->
     heap_ordered comparator (size h1) (elems h1)).
Proof.
  intros Hsh. destruct (decide (size h = 0)) as [H0|H0].
  - exists NULL, h. rewrite binary_heap_pop_min_empty by exact H0.
    rewrite binary_heap_min_empty by exact H0.
    split; [reflexivity|]. split; [reflexivity|]. split; [exact Hsh|].
    split; [reflexivity|]. split; [cbn; lia|]. auto.
  - assert (Hpos : 0 < size h) by (destruct Hsh; lia).
    rewrite (binary_heap_min_root valid h Hsh Hpos).
    destruct (elt (elems h) 0) as [root|] eqn:Hroot.
    + destruct (binary_heap_pop_min_correct comparator valid Hdef h)
        as (h1 & Hrun & Hsz & Hsh1 & Hperm & Hord1); auto.
      { rewrite Hroot. discriminate. }
      rewrite Hroot in Hrun, Hperm. exists (Some root), h1.
      split; [exact Hrun|]. split; [reflexivity|]. split; [exact Hsh1|].
      split; [exact Hperm|]. split; [cbn; lia|]. exact Hord1.
    + exists NULL, h.
      rewrite (binary_heap_pop_min_null_root comparator valid h) by auto.
      split; [reflexivity|]. split; [reflexivity|]. split; [exact Hsh|].
      split; [reflexivity|]. split; [cbn; lia|]. auto.
Qed.

(** What a run of operations keeps: the shape of the heap, its elements
    with those the pops returned, and a capacity doubled from the first
    one and below twice the number of insertions. *)
Lemma run_ops_invariants ops : forall h (m : Z),
  heap_shape valid h ->
  Forall valid (inserted ops) ->
  size h + Z.of_nat (length (inserted ops)) <= MAX_ELEMS ->
  doubled_capacity (capacity h) ->
  size h <= m ->
  capacity h = DEFAULT_ARR_CAPACITY \/ capacity h < 2 * m ->
  exists rs h',
    run_ops comparator ops h = Done (rs, h') /\
    heap_shape valid h' /\
    successful rs ++ live h' ≡ₚ inserted ops ++ live h /\
    doubled_capacity (capacity h') /\
    capacity h <= capacity h' /\
    (capacity h' = DEFAULT_ARR_CAPACITY \/
     capacity h' < 2 * (m + Z.of_nat (length (inserted ops)))) /\
    (three_way_comparator comparator valid ->
     heap_ordered comparator (size h) (elems h) ->
     heap_ordered comparator (size h') (elems h')).
Proof.
  induction ops as [|[elem|] ops IH]; intros h m Hsh Hval Hmax Hk Hm Hcap.
  - exists [], h. split; [reflexivity|]. split; [exact Hsh|].
    split; [reflexivity|]. split; [exact Hk|]. split; [lia|].
    split; [cbn [inserted length]; lia|]. auto.
  - cbn [inserted] in Hval, Hmax. cbn [length] in Hmax.
    apply Forall_cons in Hval as [Hve Hval].
    destruct (binary_heap_insert_correct comparator valid Hdef h elem)
      as (h1 & Hrun & Hsz & Hsh1 & Hperm1 & Hord1); auto; try lia.
    pose proof (binary_heap_insert_capacity _ _ _ _ Hrun) as Hc1.
    assert (Hcap1 : doubled_capacity (capacity h1) /\
                    capacity h <= capacity h1 /\
                    (capacity h1 = DEFAULT_ARR_CAPACITY \/
                     capacity h1 < 2 * (m + 1))).
    { destruct Hsh as [Hs Hc Hl Hb Hv]. unfold MAX_ELEMS in *.
      destruct (Z.eqb_spec (size h) (capacity h)) as [Heq|Hne].
      - rewrite to_uint_small in Hc1 by lia.
        destruct Hk as [k Hk]. split; [|lia].
        exists (S k). rewrite Hc1, Hk, Nat2Z.inj_succ, Z.pow_succ_r by lia.
        lia.
      - rewrite Hc1. split; [exact Hk|]. lia. }
    destruct Hcap1 as (Hk1 & Hle1 & Hcap1).
    destruct (IH h1 (m + 1))
      as (rs & h' & Hrun' & Hsh' & Hperm' & Hk' & Hle' & Hcap' & Hord');
      auto; try lia.
    exists rs, h'. cbn [run_ops]. rewrite Hrun, bind_Done. cbn [snd].
    split; [exact Hrun'|]. split; [exact Hsh'|].
    split.
    { rewrite Hperm', Hperm1. cbn [inserted].
      rewrite <- Permutation_middle. reflexivity. }
    split; [exact Hk'|]. split; [lia|].
    split; [cbn [inserted length]; lia|]. auto.
  - cbn [inserted] in Hval, Hmax.
    destruct (binary_heap_pop_min_any h Hsh)
      as (r & h1 & Hrun & _ & Hsh1 & Hperm1 & Hsz & Hord1).
    pose proof (binary_heap_pop_min_capacity _ _ _ Hrun) as Hc1.
    assert (Hsz1 : size h1 <= size h) by lia.
    destruct (IH h1 m)
      as (rs & h' & Hrun' & Hsh' & Hperm' & Hk' & Hle' & Hcap' & Hord');
      auto; try lia.
    { rewrite Hc1. exact Hk. }
    exists (r :: rs), h'. cbn [run_ops]. rewrite Hrun, bind_Done. cbn [snd fst].
    rewrite Hrun', bind_Done. cbn [snd fst].
    split; [reflexivity|]. split; [exact Hsh'|].
    split.
    { cbn [inserted]. rewrite <- Hperm1. unfold successful in *.
      destruct r as [x|]; cbn [List.filter is_null negb app].
      - rewrite <- Permutation_middle. constructor. exact Hperm'.
      - exact Hperm'. }
    split; [exact Hk'|]. split; [lia|].
    split; [exact Hcap'|]. auto.
Qed.

End RunFacts.

Section FreeFacts.
Context {A : Type}.
Implicit Types (es : list (ptr A)) (i j k n : Z) (h : binary_heap A).

Lemma live_lookup h i :
  0 <= i < size h -> size h <= Z.of_nat (length (elems h)) ->
  live h !! Z.to_nat i = Some (elt (elems h) i).
Proof.
  intros Hi Hl. unfold live. rewrite lookup_take_lt by lia.
  apply lookup_elt. lia.
Qed.

Lemma elem_of_live h (x : ptr A) :
  0 <= size h <= Z.of_nat (length (elems h)) ->
  x ∈ live h -> exists i, 0 <= i < size h /\ elt (elems h) i = x.
Proof.
  intros Hl Hx. apply list_elem_of_lookup_1 in Hx as [m Hm].
  assert (Hlt : (m < Z.to_nat (size h))%nat).
  { apply lookup_lt_Some in Hm. unfold live in Hm.
    rewrite length_take in Hm. lia. }
  exists (Z.of_nat m). split; [lia|].
  rewrite <- (Nat2Z.id m) in Hm. rewrite live_lookup in Hm by lia.
  injection Hm as Hm. exact Hm.
Qed.

(** The loop of [free_heap] from the slot [i] on, when no live slot is
    null: one call for each slot, in the order of the array. *)
Lemma free_loop_calls h fuel : forall i,
  0 <= i <= size h -> size h <= Z.of_nat (length (elems h)) ->
  size h <= INT_MAX ->
  (forall j, i <= j < size h -> elt (elems h) j <> NULL) ->
  (Z.to_nat (size h - i) < fuel)%nat ->
  free_loop fuel h i = Done ((fun e => [e]) <$> drop (Z.to_nat i) (live h)).
Proof.
  induction fuel as [|fuel IH]; intros i Hi Hl Hmax Hnn Hfuel; [lia|].
  unfold INT_MAX in Hmax. cbn [free_loop].
  rewrite to_uint_small by lia.
  destruct (Z.ltb_spec i (size h)) as [Hlt|Hge].
  - rewrite array_get_elt by lia. rewrite bind_Done.
    destruct (elt (elems h) i) as [x|] eqn:Hx;
      [|exfalso; apply (Hnn i); [lia|exact Hx]].
    cbn [is_null negb assert]. rewrite bind_Done.
    rewrite int_arith_Done by (unfold INT_MIN, INT_MAX; lia).
    rewrite bind_Done.
    rewrite (IH (i + 1));
      [| lia | lia | unfold INT_MAX; lia | intros j Hj; apply Hnn; lia | lia].
    rewrite bind_Done.
    rewrite (drop_S (live h) (Some x) (Z.to_nat i)).
    2:{ rewrite live_lookup by lia. rewrite Hx. reflexivity. }
    replace (Z.to_nat (i + 1)) with (S (Z.to_nat i)) by lia.
    reflexivity.
  - rewrite drop_ge; [reflexivity|].
    unfold live. rewrite length_take. lia.
Qed.

(** ... and when a live slot is null: the assertion on that slot fails. *)
Lemma free_loop_null h fuel : forall i,
  0 <= i -> size h <= Z.of_nat (length (elems h)) ->
  size h <= INT_MAX ->
  (exists j, i <= j < size h /\ elt (elems h) j = NULL) ->
  (Z.to_nat (size h - i) < fuel)%nat ->
  free_loop fuel h i = Fault AssertionFailure.
Proof.
  induction fuel as [|fuel IH]; intros i Hi Hl Hmax (j & Hj & Hnull) Hfuel;
    [lia|].
  unfold INT_MAX in Hmax. cbn [free_loop].
  rewrite to_uint_small by lia.
  destruct (Z.ltb_spec i (size h)) as [Hlt|Hge]; [|lia].
  rewrite array_get_elt by lia. rewrite bind_Done.
  destruct (elt (elems h) i) as [x|] eqn:Hx; [|reflexivity].
  cbn [is_null negb assert]. rewrite bind_Done.
  rewrite int_arith_Done by (unfold INT_MIN, INT_MAX; lia).
  rewrite bind_Done.
  rewrite (IH (i + 1)); [reflexivity | lia | lia | unfold INT_MAX; lia | | lia].
  exists j. split; [|exact Hnull].
  destruct (decide (j = i)) as [->|]; [|lia].
  rewrite Hx in Hnull. discriminate Hnull.
Qed.

(** With a destructor that returns, [free_heap_with] returns when
    [free_heap] lists its calls, and stops as it does otherwise: the two
    are the same loop. *)
Lemma free_loop_with_returning (free_elem : ptr A -> outcome unit) h fuel :
  (forall e, free_elem e = Done tt) ->
  forall i,
    free_loop_with free_elem fuel h i = (_ ← free_loop fuel h i; Done tt).
Proof.
  intros Hret. induction fuel as [|fuel IH]; intros i; [reflexivity|].
  cbn [free_loop_with free_loop].
  destruct (to_uint i <? size h); [|reflexivity].
  destruct (array_get (elems h) i) as [e|f]; [|reflexivity].
  rewrite !bind_Done.
  destruct (assert (negb (is_null e))) as [u|f]; [|reflexivity].
  rewrite !bind_Done, Hret, bind_Done.
  destruct (int_arith (i + 1)) as [i'|f]; [|reflexivity].
  rewrite !bind_Done, IH.
  destruct (free_loop fuel h i') as [calls|f]; reflexivity.
Qed.

End FreeFacts.

Section OrderMore.
Context {A : Type}.
Variable comparator : ptr A -> ptr A -> outcome comparison_t.
Variable valid : ptr A -> Prop.

Lemma cmp_le_antisym (x y : ptr A) :
  total_order_comparator comparator valid ->
  valid x -> valid y ->
  cmp_le comparator x y -> cmp_le comparator y x -> x = y.
Proof.
  intros [[Hd Hf Ht] Ha] Hx Hy Hxy Hyx.
  destruct (Hd x y Hx Hy) as [c Hc]. destruct c.
  - exfalso. apply Hyx. apply (Hf x y Hx Hy). exact Hc.
  - exfalso. exact (Hxy Hc).
  - apply Ha; assumption.
Qed.

End OrderMore.

(** * More about the heap *)

(** X3: the capacity of the array after any run of insertions and pops
    from [create_empty_heap]: it is [DEFAULT_ARR_CAPACITY] doubled some
    number of times, the array has that many slots and the elements fit in
    it (so the assertion of [binary_heap_insert] holds); it is still
    [DEFAULT_ARR_CAPACITY] or less than twice the number of insertions. *)
Theorem capacity_after_operations {A : Type}
    (comparator : ptr A -> ptr A -> outcome comparison_t)
    (valid : ptr A -> Prop) (ops : list (heap_op A)) :
  cmp_defined comparator valid ->
  Forall valid (inserted ops) ->
  Z.of_nat (length (inserted ops)) <= MAX_ELEMS ->
  exists rs h,
    run_ops comparator ops create_empty_heap = Done (rs, h) /\
    doubled_capacity (capacity h) /\
    Z.of_nat (length (elems h)) = capacity h /\
    binary_heap_size h <= capacity h /\
    (capacity h = DEFAULT_ARR_CAPACITY \/
     capacity h < 2 * Z.of_nat (length (inserted ops))).
Proof.
  intros Hdef Hval Hmax.
  destruct (run_ops_invariants comparator valid Hdef ops create_empty_heap 0)
    as (rs & h & Hrun & Hsh & _ & Hk & _ & Hcap & _).
  - apply create_empty_heap_shape.
  - exact Hval.
  - cbn [create_empty_heap size]. lia.
  - exists 0%nat. reflexivity.
  - reflexivity.
  - left. reflexivity.
  - exists rs, h. destruct Hsh as [Hs Hc Hl Hb Hv]. unfold binary_heap_size.
    split; [exact Hrun|]. split; [exact Hk|]. split; [exact Hl|].
    split; [lia|]. exact Hcap.
Qed.

Lemma capacity_after_operations_witness :
  exists rs h,
    run_ops node_order (OpPopMin :: insert_nodes (seqZ 1 17))
      create_empty_heap = Done (rs, h) /\
    doubled_capacity (capacity h) /\
    Z.of_nat (length (elems h)) = capacity h /\
    binary_heap_size h <= capacity h /\
    (capacity h = DEFAULT_ARR_CAPACITY \/
     capacity h <
       2 * Z.of_nat (length (inserted (OpPopMin :: insert_nodes (seqZ 1 17))))).
Proof.
  apply (capacity_after_operations node_order is_node).
  - exact (twc_defined _ _ (toc_three_way _ _ node_order_total)).
  - vm_compute. repeat constructor; discriminate.
  - vm_compute. discriminate.
Defined.

(** X4: in any run of insertions and pops from [create_empty_heap], the
    elements the pops returned together with the elements left in the heap
    are the inserted elements, each as often as it was inserted: no
    element is lost, duplicated or invented, whatever the interleaving. *)
Theorem elements_conserved_by_operations {A : Type}
    (comparator : ptr A -> ptr A -> outcome comparison_t)
    (valid : ptr A -> Prop) (ops : list (heap_op A)) :
  cmp_defined comparator valid ->
  Forall valid (inserted ops) ->
  Z.of_nat (length (inserted ops)) <= MAX_ELEMS ->
  exists rs h,
    run_ops comparator ops create_empty_heap = Done (rs, h) /\
    successful rs ++ live h ≡ₚ inserted ops.
Proof.
  intros Hdef Hval Hmax.
  destruct (run_ops_invariants comparator valid Hdef ops create_empty_heap 0)
    as (rs & h & Hrun & _ & Hperm & _).
  - apply create_empty_heap_shape.
  - exact Hval.
  - cbn [create_empty_heap size]. lia.
  - exists 0%nat. reflexivity.
  - reflexivity.
  - left. reflexivity.
  - exists rs, h. split; [exact Hrun|].
    rewrite Hperm. rewrite (live_nil create_empty_heap) by reflexivity.
    rewrite app_nil_r. reflexivity.
Qed.

Lemma elements_conserved_by_operations_witness :
  let ops := [OpInsert (make_node 3); OpInsert (make_node 1); OpPopMin;
              OpInsert (make_node 2); OpInsert (make_node 1); OpPopMin] in
  exists rs h,
    run_ops node_order ops create_empty_heap = Done (rs, h) /\
    successful rs ++ live h ≡ₚ inserted ops.
Proof.
  intros ops. apply (elements_conserved_by_operations node_order is_node).
  - exact (twc_defined _ _ (toc_three_way _ _ node_order_total)).
  - repeat constructor; discriminate.
  - vm_compute. discriminate.
Defined.

(** X5: after any run of insertions and pops from [create_empty_heap]
    that leaves the heap non-empty, [binary_heap_min] returns an element of
    the heap that the comparator finds greater than no element of the heap,
    and [binary_heap_pop_min] returns that same element. *)
Theorem min_is_least_after_operations {A : Type}
    (comparator : ptr A -> ptr A -> outcome comparison_t)
    (valid : ptr A -> Prop) (ops : list (heap_op A)) :
  three_way_comparator comparator valid ->
  Forall valid (inserted ops) ->
  Z.of_nat (length (inserted ops)) <= MAX_ELEMS ->
  exists rs h,
    run_ops comparator ops create_empty_heap = Done (rs, h) /\
    (0 < binary_heap_size h ->
     exists r,
       binary_heap_min h = Done r /\
       r ∈ live h /\
       (forall x, x ∈ live h ->
          exists c, comparator r x = Done c /\ c <> GREATER_THAN) /\
       exists h', binary_heap_pop_min comparator h = Done (r, h')).
Proof.
  intros Hcmp Hval Hmax. pose proof (twc_defined _ _ Hcmp) as Hdef.
  destruct (run_ops_correct comparator valid Hdef ops create_empty_heap)
    as (rs & h & Hrun & Hsh & _ & Hord).
  - apply create_empty_heap_shape.
  - exact Hval.
  - cbn [create_empty_heap size]. lia.
  - exists rs, h. split; [exact Hrun|]. unfold binary_heap_size. intros Hpos.
    specialize (Hord Hcmp (create_empty_heap_ordered comparator)).
    exists (elt (elems h) 0).
    split; [apply (binary_heap_min_root valid); assumption|].
    split; [apply (root_in_live valid); assumption|].
    split.
    + intros x Hx.
      pose proof (root_le_live comparator valid h Hcmp Hsh Hpos Hord) as Hle.
      pose proof (live_valid valid h Hsh) as Hv.
      rewrite Forall_forall in Hle, Hv.
      destruct (Hdef (elt (elems h) 0) x) as [c Hc].
      * apply Hv. apply (root_in_live valid); assumption.
      * apply Hv, Hx.
      * exists c. split; [exact Hc|]. intros ->. exact (Hle x Hx Hc).
    + destruct (binary_heap_pop_min_any comparator valid Hdef h Hsh)
        as (r & h1 & Hpop & Hmin & _).
      rewrite (binary_heap_min_root valid h Hsh Hpos) in Hmin.
      injection Hmin as <-. exists h1. exact Hpop.
Qed.

Lemma min_is_least_after_operations_witness :
  exists rs h,
    run_ops node_order
      [OpInsert (make_node 3); OpInsert (make_node 1); OpPopMin;
       OpInsert (make_node 2); OpInsert (make_node 5)]
      create_empty_heap = Done (rs, h) /\
    (0 < binary_heap_size h ->
     exists r,
       binary_heap_min h = Done r /\
       r ∈ live h /\
       (forall x, x ∈ live h ->
          exists c, node_order r x = Done c /\ c <> GREATER_THAN) /\
       exists h', binary_heap_pop_min node_order h = Done (r, h')).
Proof.
  apply (min_is_least_after_operations node_order is_node).
  - exact (toc_three_way _ _ node_order_total).
  - repeat constructor; discriminate.
  - vm_compute. discriminate.
Defined.

(** X6: with a comparator of a total order, inserting [elem] into the heap
    an arbitrary run of operations left: the new minimum is [elem] when the
    heap was empty or [elem] compares [LESS_THAN] to the old minimum, and
    the old minimum otherwise. *)
Theorem min_after_insert {A : Type}
    (comparator : ptr A -> ptr A -> outcome comparison_t)
    (valid : ptr A -> Prop) (ops : list (heap_op A)) (elem : ptr A) :
  total_order_comparator comparator valid ->
  Forall valid (inserted ops) ->
  valid elem ->
  Z.of_nat (length (inserted ops)) < MAX_ELEMS ->
  exists rs h h',
    run_ops comparator ops create_empty_heap = Done (rs, h) /\
    binary_heap_insert comparator h elem = Done (1, h') /\
    (binary_heap_size h = 0 -> binary_heap_min h' = Done elem) /\
    (forall m, 0 < binary_heap_size h -> binary_heap_min h = Done m ->
       binary_heap_min h' =
         Done (match comparator elem m with
               | Done LESS_THAN => elem
               | _ => m
               end)).
Proof.
  intros Htot Hval Hve Hmax.
  pose proof (toc_three_way _ _ Htot) as Hcmp.
  pose proof (twc_defined _ _ Hcmp) as Hdef.
  destruct (run_ops_correct comparator valid Hdef ops create_empty_heap)
    as (rs & h & Hrun & Hsh & Hsz & Hord).
  { apply create_empty_heap_shape. }
  { exact Hval. }
  { cbn [create_empty_heap size]. lia. }
  specialize (Hord Hcmp (create_empty_heap_ordered comparator)).
  cbn [create_empty_heap size] in Hsz.
  destruct (binary_heap_insert_correct comparator valid Hdef h elem)
    as (h' & Hins & Hsz' & Hsh' & Hperm & Hord'); auto; try lia.
  specialize (Hord' Hcmp Hord).
  assert (Hpos' : 0 < size h') by (destruct Hsh; lia).
  pose proof (root_le_live comparator valid h' Hcmp Hsh' Hpos' Hord') as Hle'.
  pose proof (root_in_live valid h' Hsh' Hpos') as Hin'.
  pose proof (live_valid valid h' Hsh') as Hv'.
  rewrite Forall_forall in Hle', Hv'.
  exists rs, h, h'. split; [exact Hrun|]. split; [exact Hins|].
  rewrite (binary_heap_min_root valid h' Hsh' Hpos').
  unfold binary_heap_size. split.
  - intros H0. f_equal. rewrite Hperm, (live_nil h) in Hin' by exact H0.
    apply list_elem_of_singleton in Hin'. exact Hin'.
  - intros m Hpos Hmin.
    rewrite (binary_heap_min_root valid h Hsh Hpos) in Hmin.
    injection Hmin as <-. f_equal.
    set (m := elt (elems h) 0). set (r := elt (elems h') 0) in *.
    pose proof (root_le_live comparator valid h Hcmp Hsh Hpos Hord) as Hle.
    pose proof (root_in_live valid h Hsh Hpos) as Hin.
    rewrite Forall_forall in Hle. fold m in Hle, Hin.
    assert (Hvm : valid m).
    { apply Hv'. rewrite Hperm. right. exact Hin. }
    assert (Hvr : valid r) by (apply Hv', Hin').
    assert (Hrm : cmp_le comparator r m).
    { apply Hle'. rewrite Hperm. right. exact Hin. }
    assert (Hre : cmp_le comparator r elem).
    { apply Hle'. rewrite Hperm. left. }
    rewrite Hperm in Hin'. apply elem_of_cons in Hin' as [Hr|Hr].
    + (* the new root is [elem] *)
      destruct (Hdef elem m Hve Hvm) as [c Hc]. rewrite Hc.
      destruct c; [exact Hr| |].
      * apply (cmp_le_antisym comparator valid); auto.
        rewrite Hr. apply (cmp_le_of_GT comparator valid Hcmp elem m); auto.
      * rewrite Hr. apply (toc_antisym _ _ Htot); auto.
    + (* the new root was in the heap *)
      assert (Heq : r = m).
      { apply (cmp_le_antisym comparator valid); auto. }
      destruct (Hdef elem m Hve Hvm) as [c Hc]. rewrite Hc.
      destruct c; [|exact Heq|exact Heq].
      exfalso. rewrite Heq in Hre. apply Hre.
      apply (twc_flip _ _ Hcmp elem m Hve Hvm). exact Hc.
Qed.

Lemma min_after_insert_witness :
  exists rs h h',
    run_ops node_order
      [OpInsert (make_node 5); OpInsert (make_node 4); OpInsert (make_node 3)]
      create_empty_heap = Done (rs, h) /\
    binary_heap_insert node_order h (make_node 2) = Done (1, h') /\
    (binary_heap_size h = 0 -> binary_heap_min h' = Done (make_node 2)) /\
    (forall m, 0 < binary_heap_size h -> binary_heap_min h = Done m ->
       binary_heap_min h' =
         Done (match node_order (make_node 2) m with
               | Done LESS_THAN => make_node 2
               | _ => m
               end)).
Proof.
  apply (min_after_insert node_order is_node).
  - exact node_order_total.
  - repeat constructor; discriminate.
  - discriminate.
  - vm_compute. reflexivity.
Defined.

(** X7: [free_heap] on the heap any run of insertions and pops of
    non-null elements left: the destructor is called once with each
    element still in the heap, in the order of the array, and with nothing
    else; so every inserted element was returned by a pop or is passed to
    the destructor, once. *)
Theorem free_heap_frees_each_element_once {A : Type}
    (comparator : ptr A -> ptr A -> outcome comparison_t)
    (valid : ptr A -> Prop) (ops : list (heap_op A)) :
  cmp_defined comparator valid ->
  (forall x, valid x -> x <> NULL) ->
  Forall valid (inserted ops) ->
  Z.of_nat (length (inserted ops)) <= MAX_ELEMS ->
  exists rs h,
    run_ops comparator ops create_empty_heap = Done (rs, h) /\
    free_heap h = Done ((fun e => [e]) <$> live h) /\
    successful rs ++ live h ≡ₚ inserted ops.
Proof.
  intros Hdef Hnn Hval Hmax.
  destruct (run_ops_invariants comparator valid Hdef ops create_empty_heap 0)
    as (rs & h & Hrun & Hsh & Hperm & _).
  - apply create_empty_heap_shape.
  - exact Hval.
  - cbn [create_empty_heap size]. lia.
  - exists 0%nat. reflexivity.
  - reflexivity.
  - left. reflexivity.
  - exists rs, h. split; [exact Hrun|]. split.
    + destruct Hsh as [Hs Hc Hl Hb Hv]. unfold free_heap, MAX_ELEMS in *.
      rewrite (free_loop_calls h _ 0); try (unfold INT_MAX; lia).
      * reflexivity.
      * intros j Hj. apply Hnn, Hv. lia.
    + rewrite Hperm. rewrite (live_nil create_empty_heap) by reflexivity.
      rewrite app_nil_r. reflexivity.
Qed.

Lemma free_heap_frees_each_element_once_witness :
  let ops := [OpInsert (make_node 3); OpInsert (make_node 1); OpPopMin;
              OpInsert (make_node 2)] in
  exists rs h,
    run_ops node_order ops create_empty_heap = Done (rs, h) /\
    free_heap h = Done ((fun e => [e]) <$> live h) /\
    successful rs ++ live h ≡ₚ inserted ops.
Proof.
  intros ops. apply (free_heap_frees_each_element_once node_order is_node).
  - exact (twc_defined _ _ (toc_three_way _ _ node_order_total)).
  - exact is_node_not_null.
  - repeat constructor; discriminate.
  - vm_compute. discriminate.
Defined.

(** X8: [binary_heap_insert] accepts a null element, and no pop removes
    it; [free_heap] on a heap into which one was inserted fails its
    assertion that the element exists. *)
Theorem free_heap_fails_on_null_element {A : Type}
    (comparator : ptr A -> ptr A -> outcome comparison_t)
    (valid : ptr A -> Prop) (ops : list (heap_op A)) :
  cmp_defined comparator valid ->
  Forall valid (inserted ops) ->
  NULL ∈ inserted ops ->
  Z.of_nat (length (inserted ops)) <= MAX_ELEMS ->
  exists rs h,
    run_ops comparator ops create_empty_heap = Done (rs, h) /\
    NULL ∈ live h /\
    free_heap h = Fault AssertionFailure.
Proof.
  intros Hdef Hval Hnull Hmax.
  destruct (run_ops_invariants comparator valid Hdef ops create_empty_heap 0)
    as (rs & h & Hrun & Hsh & Hperm & _).
  - apply create_empty_heap_shape.
  - exact Hval.
  - cbn [create_empty_heap size]. lia.
  - exists 0%nat. reflexivity.
  - reflexivity.
  - left. reflexivity.
  - exists rs, h. split; [exact Hrun|].
    rewrite (live_nil create_empty_heap), app_nil_r in Hperm by reflexivity.
    assert (Hin : NULL ∈ live h).
    { rewrite <- Hperm in Hnull. apply elem_of_app in Hnull as [Hs|Hl];
        [|exact Hl].
      exfalso. unfold successful in Hs. apply list_elem_of_In in Hs.
      apply List.filter_In in Hs as [_ Hs]. discriminate Hs. }
    split; [exact Hin|].
    destruct Hsh as [Hs Hc Hl Hb Hv]. unfold free_heap, MAX_ELEMS in *.
    apply (elem_of_live h) in Hin as (j & Hj & Hnullj); [|lia].
    apply free_loop_null; try (unfold INT_MAX; lia).
    exists j. split; [lia|exact Hnullj].
Qed.

Lemma free_heap_fails_on_null_element_witness :
  exists rs h,
    run_ops null_first_order
      [OpInsert (make_node 1); OpInsert NULL; OpPopMin] create_empty_heap
      = Done (rs, h) /\
    NULL ∈ live h /\
    free_heap h = Fault AssertionFailure.
Proof.
  apply (free_heap_fails_on_null_element null_first_order any_ptr).
  - exact (twc_defined _ _ (toc_three_way _ _ null_first_order_total)).
  - repeat constructor.
  - right. left.
  - vm_compute. discriminate.
Defined.

(** * More about the event queue *)

(** X9: a queue made by [create_generic_event_queue] holds one event,
    whatever the time comparator (no comparison is made): after the
    enqueue of a payload and a time, which returns 1, [event_queue_size]
    is 1, [event_queue_peek] gives the payload and the time, and
    [event_queue_dequeue] gives them too and leaves a queue of size 0. *)
Theorem event_queue_holds_one_event {D T C : Type}
    (tc : func_comparator_t T C)
    (free_data : func_free_t D C) (free_time : func_free_t T C)
    (free_data_arg free_time_arg : ptr C) (elem : ptr D) (t : T) :
  exists q1 q2,
    event_queue_enqueue
      (create_generic_event_queue tc free_data free_time
         free_data_arg free_time_arg) elem (Some t) = Done (1, q1) /\
    event_queue_size q1 = 1 /\
    event_queue_peek q1 = Done (elem, Some t) /\
    event_queue_dequeue q1 = Done (elem, Some t, q2) /\
    event_queue_size q2 = 0.
Proof.
  eexists. eexists. split; [reflexivity|]. split; [reflexivity|].
  split; [reflexivity|]. split; reflexivity.
Qed.

(** X11: an event enqueued alone with [event_queue_enqueue_uint_time] into
    a queue made by [create_queue_uint_time]:
    [event_queue_peek_uint_time] returns its time, as it was given, and
    its payload, and [event_queue_dequeue_uint_time] returns the same and
    leaves a queue of size 0. *)
Theorem uint_time_comes_back_unchanged {D C : Type}
    (free_data : func_free_t D C) (free_data_arg : ptr C)
    (elem : ptr D) (time_val : Z) :
  0 <= time_val <= UINT_MAX ->
  exists q1 q2,
    event_queue_enqueue_uint_time
      (create_queue_uint_time free_data free_data_arg) elem time_val
      = Done q1 /\
    event_queue_size q1 = 1 /\
    event_queue_peek_uint_time q1 = Done (time_val, elem) /\
    event_queue_dequeue_uint_time q1 = Done (time_val, elem, q2) /\
    event_queue_size q2 = 0.
Proof.
  intros _. eexists. eexists. split; [reflexivity|]. split; [reflexivity|].
  split; [reflexivity|]. split; reflexivity.
Qed.

Lemma uint_time_comes_back_unchanged_witness :
  exists q1 q2,
    event_queue_enqueue_uint_time
      (create_queue_uint_time (D := Z) (C := unit) no_free NULL) (Some 10) 15
      = Done q1 /\
    event_queue_size q1 = 1 /\
    event_queue_peek_uint_time q1 = Done (15, Some 10) /\
    event_queue_dequeue_uint_time q1 = Done (15, Some 10, q2) /\
    event_queue_size q2 = 0.
Proof.
  apply (uint_time_comes_back_unchanged no_free NULL (Some 10) 15).
  vm_compute. split; discriminate.
Defined.

(** X13: an event enqueued alone with [event_queue_enqueue_double_time]
    into a queue made by [create_queue_double_time], with any double for
    its time, a NaN or an infinity too: [event_queue_peek_double_time]
    returns that double as it was given, and the payload. *)
Theorem peek_double_time_returns_the_time {D C : Type}
    (free_data : func_free_t D C) (free_data_arg : ptr C)
    (elem : ptr D) (time_val : spec_float) :
  exists q1,
    event_queue_enqueue_double_time
      (create_queue_double_time free_data free_data_arg) elem time_val
      = Done q1 /\
    event_queue_size q1 = 1 /\
    event_queue_peek_double_time q1 = Done (time_val, elem).
Proof.
  eexists. split; [reflexivity|]. split; reflexivity.
Qed.

(** X14: [free_event_queue] on a queue just made returns, no destructor
    called; on a queue that holds an event it is undefined: [free_heap]
    calls [event_free] with the event alone, and [event_free] reads the
    destructors of the payload and of the time through the queue pointer
    it is not given. The events of a queue cannot be freed through it. *)
Theorem free_event_queue_is_undefined_with_an_event {D T C : Type}
    (tc : func_comparator_t T C)
    (free_data : func_free_t D C) (free_time : func_free_t T C)
    (free_data_arg free_time_arg : ptr C) (elem : ptr D) (t : T) :
  let q0 := create_generic_event_queue tc free_data free_time
              free_data_arg free_time_arg in
  free_event_queue q0 = Done tt /\
  exists q1,
    event_queue_enqueue q0 elem (Some t) = Done (1, q1) /\
    free_event_queue q1 = Fault UndefinedBehaviour.
Proof.
  intros q0. split; [reflexivity|].
  eexists. split; reflexivity.
Qed.

(** * The test harness and the demonstration *)

Lemma passes_bounds (results : list test_result_t) :
  0 <= passes results <= Z.of_nat (length results).
Proof.
  unfold passes. split; [lia|].
  apply Nat2Z.inj_le. apply List.filter_length_le.
Qed.

Lemma passes_all (results : list test_result_t) :
  passes results = Z.of_nat (length results) <-> Forall (fun r => r = PASS) results.
Proof.
  induction results as [|r rs IH].
  - split; [constructor|reflexivity].
  - pose proof (passes_bounds rs) as Hb. rewrite Forall_cons.
    assert (Hstep : passes (r :: rs) = test_result_value r + passes rs).
    { unfold passes. cbn [List.filter].
      destruct r; cbn -[Z.of_nat]; lia. }
    rewrite Hstep. cbn [length]. rewrite Nat2Z.inj_succ.
    destruct r; cbn [test_result_value].
    + split; [lia|]. intros [H _]. discriminate H.
    + split.
      * intros H. split; [reflexivity|]. apply IH. lia.
      * intros [_ H]. apply IH in H. lia.
Qed.

Lemma passes_snoc (results : list test_result_t) (r : test_result_t) :
  passes (results ++ [r]) = passes results + test_result_value r.
Proof.
  unfold passes. rewrite List.filter_app, length_app.
  destruct r; cbn; lia.
Qed.

(** The loop from the test [length done]: it ends with the number of the
    tests that passed and the number of the tests. *)
Lemma tests_loop_counts (todo : list func_test_t) : forall fuel done
    (results_done results_todo : list test_result_t),
  Forall2 (fun t r => t tt = Done r) todo results_todo ->
  length results_done = length done ->
  Z.of_nat (length done + length todo) < INT_MAX ->
  (length todo < fuel)%nat ->
  tests_loop fuel ((Some <$> done ++ todo) ++ [NULL])
    (Z.of_nat (length done)) (passes results_done)
    (Z.of_nat (length done))
  = Done (passes (results_done ++ results_todo),
          Z.of_nat (length done + length todo)).
Proof.
  induction todo as [|t todo IH];
    intros fuel done rd rt Hrun Hlen Hmax Hfuel;
    (destruct fuel as [|fuel]; [cbn [length] in Hfuel; lia|]).
  - apply Forall2_nil_inv_l in Hrun as ->. cbn [tests_loop].
    rewrite !app_nil_r. unfold array_get.
    destruct (Z.ltb_spec (Z.of_nat (length done)) 0); [lia|].
    rewrite Nat2Z.id.
    rewrite lookup_app_r by (rewrite length_fmap; lia).
    rewrite length_fmap, Nat.sub_diag. cbn. rewrite Nat.add_0_r.
    reflexivity.
  - apply Forall2_cons_inv_l in Hrun as (r & rt' & Hr & Hrun & ->).
    cbn [length] in Hmax, Hfuel. unfold INT_MAX in Hmax.
    cbn [tests_loop]. unfold array_get.
    destruct (Z.ltb_spec (Z.of_nat (length done)) 0); [lia|].
    rewrite Nat2Z.id.
    rewrite lookup_app_l by (rewrite length_fmap, length_app; cbn; lia).
    rewrite list_lookup_fmap.
    rewrite lookup_app_r by lia. rewrite Nat.sub_diag. cbn [lookup list_lookup fmap option_fmap option_map].
    rewrite bind_Done. cbn beta iota. rewrite Hr, bind_Done. cbn beta.
    pose proof (passes_bounds rd) as Hb.
    rewrite (int_arith_Done (passes rd + test_result_value r))
      by (unfold INT_MIN, INT_MAX; destruct r; cbn [test_result_value]; lia).
    rewrite bind_Done. cbn beta.
    rewrite (int_arith_Done (Z.of_nat (length done) + 1))
      by (unfold INT_MIN, INT_MAX; lia).
    rewrite !bind_Done. cbn beta.
    assert (Hl1 : length (done ++ [t]) = S (length done))
      by (rewrite length_app; cbn [length]; lia).
    replace (Z.of_nat (length done) + 1) with (Z.of_nat (length (done ++ [t])))
      by lia.
    rewrite <- passes_snoc.
    replace (done ++ t :: todo) with ((done ++ [t]) ++ todo)
      by (rewrite <- app_assoc; reflexivity).
    rewrite (IH fuel (done ++ [t]) (rd ++ [r]) rt' Hrun).
    + rewrite <- app_assoc, Hl1. cbn [app length].
      replace (S (length done) + length todo)%nat
        with (length done + S (length todo))%nat by lia.
      reflexivity.
    + rewrite Hl1, length_app. cbn [length]. lia.
    + unfold INT_MAX. rewrite Hl1. lia.
    + lia.
Qed.

(** X15: the [main] that [REGISTER_TESTS] defines, for test functions that
    return and fewer than [INT_MAX] of them: it returns 0 when every test
    returned [PASS], and -1 when a test returned [FAIL]. *)
Theorem registered_tests_result (args : list func_test_t)
    (results : list test_result_t) :
  Forall2 (fun test r => test tt = Done r) args results ->
  Z.of_nat (length args) < INT_MAX ->
  REGISTER_TESTS args =
    Done (if forallb (fun r => test_result_value r =? 1) results
          then 0 else -1).
Proof.
  intros Hrun Hmax. unfold REGISTER_TESTS.
  pose proof (tests_loop_counts args (S (length args)) [] [] results Hrun
                eq_refl) as Hloop.
  cbn [length app Nat.add] in Hloop.
  change (passes []) with 0 in Hloop. change (Z.of_nat 0) with 0 in Hloop.
  rewrite Hloop by lia. rewrite bind_Done. cbn [fst snd].
  f_equal.
  assert (Hlen : length args = length results)
    by (eapply Forall2_length; exact Hrun).
  rewrite Hlen.
  destruct (Z.eqb_spec (passes results) (Z.of_nat (length results)))
    as [Hall|Hsome].
  - apply passes_all in Hall.
    rewrite (proj2 (forallb_forall _ results)); [reflexivity|].
    intros r Hr. rewrite Forall_forall in Hall.
    rewrite (Hall r) by (apply list_elem_of_In; exact Hr). reflexivity.
  - destruct (forallb _ results) eqn:Hfa; [|reflexivity].
    exfalso. apply Hsome. apply passes_all.
    apply Forall_forall. intros r Hr.
    rewrite forallb_forall in Hfa.
    specialize (Hfa r (proj1 (list_elem_of_In _ _) Hr)).
    destruct r; [discriminate Hfa|reflexivity].
Qed.

Lemma registered_tests_result_witness :
  REGISTER_TESTS [factorial_zero; factorial_one; factorial_five] =
    Done (if forallb (fun r => test_result_value r =? 1) [FAIL; PASS; PASS]
          then 0 else -1).
Proof.
  apply (registered_tests_result
           [factorial_zero; factorial_one; factorial_five] [FAIL; PASS; PASS]).
  - repeat constructor.
  - vm_compute. reflexivity.
Defined.

Lemma fact_S_Z (k : nat) :
  Z.of_nat (fact (S k)) = Z.of_nat (S k) * Z.of_nat (fact k).
Proof. rewrite <- Nat2Z.inj_mul. reflexivity. Qed.

Lemma fact_12_Z : Z.of_nat (fact 12) = 479001600.
Proof. rewrite !fact_S_Z. vm_compute. reflexivity. Qed.

Lemma fact_13_Z : Z.of_nat (fact 13) = 6227020800.
Proof. rewrite fact_S_Z, fact_12_Z. reflexivity. Qed.

Lemma fact_34_mod : Z.of_nat (fact 34) mod 2 ^ 32 = 0.
Proof. rewrite !fact_S_Z. vm_compute. reflexivity. Qed.

Lemma fact_mod_zero (k : nat) :
  (34 <= k)%nat -> Z.of_nat (fact k) mod 2 ^ 32 = 0.
Proof.
  induction 1 as [|k Hk IH]; [exact fact_34_mod|].
  rewrite fact_S_Z, Z.mul_mod, IH, Z.mul_0_r by lia. reflexivity.
Qed.

Lemma factorial_rec_spec (fuel : nat) : forall n,
  0 <= n <= UINT_MAX -> (Z.to_nat n < fuel)%nat ->
  factorial_rec fuel n = Done (Z.of_nat (fact (Z.to_nat n)) mod 2 ^ 32).
Proof.
  induction fuel as [|fuel IH]; intros n Hn Hfuel; [lia|].
  unfold UINT_MAX in Hn. cbn [factorial_rec].
  destruct (Z.eqb_spec n 0) as [->|Hn0]; [reflexivity|].
  rewrite to_uint_small by lia.
  rewrite IH by (unfold UINT_MAX; lia). rewrite bind_Done.
  f_equal. unfold to_uint.
  replace (Z.to_nat n) with (S (Z.to_nat (n - 1))) by lia.
  rewrite fact_S_Z, Nat2Z.inj_succ, Z2Nat.id by lia.
  replace (Z.succ (n - 1)) with n by lia.
  apply Z.mul_mod_idemp_r. lia.
Qed.

Lemma factorial_spec (n : Z) :
  0 <= n <= UINT_MAX ->
  factorial n = Done (Z.of_nat (fact (Z.to_nat n)) mod 2 ^ 32).
Proof.
  intros Hn. unfold factorial. apply factorial_rec_spec; [exact Hn|lia].
Qed.

(** X16: [factorial] returns the factorial of its argument reduced modulo
    2^32, for every [unsigned int] argument. *)
Theorem factorial_is_the_factorial_modulo_2_32 (n : Z) :
  0 <= n <= UINT_MAX ->
  factorial n = Done (Z.of_nat (fact (Z.to_nat n)) mod 2 ^ 32).
Proof.
  intros Hn. unfold factorial. apply factorial_rec_spec; [exact Hn|lia].
Qed.

Lemma factorial_is_the_factorial_modulo_2_32_witness :
  factorial 5 = Done (Z.of_nat (fact (Z.to_nat 5)) mod 2 ^ 32).
Proof.
  apply (factorial_is_the_factorial_modulo_2_32 5). vm_compute.
  split; discriminate.
Defined.

(** X17: the result of [factorial] is the factorial of its argument up to
    the argument 12 and no further (13! does not fit in 32 bits), and it is
    0 from the argument 34 on and not before (2^32 divides 34!). *)
Theorem factorial_overflows_from_13 (n : Z) :
  0 <= n <= UINT_MAX ->
  (factorial n = Done (Z.of_nat (fact (Z.to_nat n))) <-> n <= 12) /\
  (factorial n = Done 0 <-> 34 <= n).
Proof.
  intros Hn. rewrite (factorial_spec n Hn).
  unfold UINT_MAX in Hn. split; split.
  - intros H. injection H as H.
    destruct (Z_le_gt_dec n 12) as [Hle|Hgt]; [exact Hle|exfalso].
    pose proof (fact_le 13 (Z.to_nat n) ltac:(lia)) as Hmono.
    apply Nat2Z.inj_le in Hmono. rewrite fact_13_Z in Hmono.
    pose proof (Z.mod_pos_bound (Z.of_nat (fact (Z.to_nat n))) (2 ^ 32)
                  ltac:(lia)) as Hb.
    rewrite H in Hb. lia.
  - intros Hle. f_equal. apply Z.mod_small.
    pose proof (fact_le (Z.to_nat n) 12 ltac:(lia)) as Hmono.
    apply Nat2Z.inj_le in Hmono. rewrite fact_12_Z in Hmono. lia.
  - intros H.
    destruct (Z_le_gt_dec 34 n) as [Hle|Hgt]; [exact Hle|exfalso].
    assert (Hchk : forallb (fun k => match factorial k with
                                     | Done 0 => false
                                     | _ => true
                                     end) (seqZ 0 34) = true)
      by (vm_compute; reflexivity).
    rewrite forallb_forall in Hchk. specialize (Hchk n). cbn beta in Hchk.
    rewrite (factorial_spec n) in Hchk
      by (unfold UINT_MAX; lia).
    injection H as H. rewrite H in Hchk. discriminate Hchk.
    apply list_elem_of_In, elem_of_seqZ. lia.
  - intros Hle. f_equal. apply fact_mod_zero. lia.
Qed.

Lemma factorial_overflows_from_13_witness :
  (factorial 12 = Done (Z.of_nat (fact (Z.to_nat 12))) <-> 12 <= 12) /\
  (factorial 12 = Done 0 <-> 34 <= 12).
Proof.
  apply (factorial_overflows_from_13 12). vm_compute. split; discriminate.
Defined.

(** * The comparators of the repository keep the contract of the heap *)

(** X18: [uint_time_comparator] compares two time structures by their
    values, whatever its last argument: [LESS_THAN], [GREATER_THAN] or
    [EQUAL_TO] as the left value is below, above or equal to the right
    one; it reads both structures, so a null pointer on either side is a
    null dereference; and on the time structures that exist it is a
    three-way comparison of a total preorder, as the heap requires. *)
Theorem uint_time_comparator_orders_by_value {C : Type} :
  (forall (a b : Z) (arg : ptr C),
     uint_time_comparator (create_uint_time a) (create_uint_time b) arg =
       Done (match a ?= b with
             | Lt => LESS_THAN
             | Gt => GREATER_THAN
             | Eq => EQUAL_TO
             end)) /\
  (forall (t : ptr uint_time) (arg : ptr C),
     uint_time_comparator NULL t arg = Fault UndefinedBehaviour /\
     uint_time_comparator t NULL arg = Fault UndefinedBehaviour) /\
  three_way_comparator (time_order (uint_time_comparator (C := C))) is_time.
Proof.
  split; [|split].
  - intros a b arg. unfold uint_time_comparator. cbn.
    destruct (Z.ltb_spec a b) as [Hlt|Hge].
    + rewrite (proj2 (Z.compare_lt_iff a b) Hlt). reflexivity.
    + destruct (Z.gtb_spec a b) as [Hgt|Hle].
      * rewrite (proj2 (Z.compare_gt_iff a b)) by lia. reflexivity.
      * rewrite (proj2 (Z.compare_eq_iff a b)) by lia. reflexivity.
  - intros t arg. split; [reflexivity|]. destruct t; reflexivity.
  - exact uint_time_order_three_way.
Qed.

(** X19: the comparator of the heap tests compares two nodes by their
    values, whatever its last argument, and on the nodes that exist it is
    a three-way comparison of a total preorder, as the heap requires. *)
Theorem heap_test_comparator_orders_by_value {C : Type} :
  (forall (a b : Z) (arg : ptr C),
     node_comparator (make_node a) (make_node b) arg =
       Done (match a ?= b with
             | Lt => LESS_THAN
             | Gt => GREATER_THAN
             | Eq => EQUAL_TO
             end)) /\
  three_way_comparator node_order is_node.
Proof.
  split.
  - intros a b arg. unfold node_comparator. cbn.
    destruct (Z.ltb_spec a b) as [Hlt|Hge].
    + rewrite (proj2 (Z.compare_lt_iff a b) Hlt). reflexivity.
    + destruct (Z.gtb_spec a b) as [Hgt|Hle].
      * rewrite (proj2 (Z.compare_gt_iff a b)) by lia. reflexivity.
      * rewrite (proj2 (Z.compare_eq_iff a b)) by lia. reflexivity.
  - exact (toc_three_way _ _ node_order_total).
Qed.

(** * An enqueue without a time *)

(** X20: [event_queue_enqueue] asserts that the time pointer is not null
    before it inserts anything: with a null time it fails that assertion
    on every queue, whatever the queue holds. So a sequence of enqueues
    stops there at a pair whose time is null, the first of the sequence or
    the one after a first event, and no later pair is enqueued. *)
Theorem enqueue_without_time_fails {D T C : Type}
    (queue : event_queue D T C) (elem : ptr D)
    (l : list (ptr D * ptr T)) :
  event_queue_enqueue queue elem NULL = Fault AssertionFailure /\
  enqueue_all ((elem, NULL) :: l) queue = Fault AssertionFailure /\
  (forall (tc : func_comparator_t T C)
          (free_data : func_free_t D C) (free_time : func_free_t T C)
          (free_data_arg free_time_arg : ptr C) (d1 : ptr D) (t1 : T),
     enqueue_all ((d1, Some t1) :: (elem, NULL) :: l)
       (create_generic_event_queue tc free_data free_time
          free_data_arg free_time_arg) = Fault AssertionFailure).
Proof.
  split; [reflexivity|]. split; [reflexivity|].
  intros tc free_data free_time free_data_arg free_time_arg d1 t1.
  reflexivity.
Qed.

(** * The two loops end after logarithmically many iterations *)

(** The depth of the node [index] in the tree. *)

Lemma depth_parent (j : Z) :
  0 < j -> Z.log2 ((j - 1) / 2 + 1) = Z.log2 (j + 1) - 1.
Proof.
  intros Hj. replace ((j - 1) / 2 + 1) with ((j + 1) / 2) by lia.
  rewrite <- Z.div2_div, Z.div2_spec, Z.log2_shiftr by lia.
  pose proof (Z.log2_le_mono 2 (j + 1) ltac:(lia)) as H.
  change (Z.log2 2) with 1 in H. lia.
Qed.

Lemma depth_child (index c : Z) :
  0 <= index -> c = 2 * index + 1 \/ c = 2 * index + 2 ->
  Z.log2 (c + 1) = Z.log2 (index + 1) + 1.
Proof.
  intros Hi [->| ->].
  - replace (2 * index + 1 + 1) with (2 * (index + 1)) by lia.
    apply Z.log2_double. lia.
  - replace (2 * index + 2 + 1) with (2 * (index + 1) + 1) by lia.
    apply Z.log2_succ_double. lia.
Qed.

Section LoopBounds.
Context {A : Type}.
Variable comparator : ptr A -> ptr A -> outcome comparison_t.
Variable valid : ptr A -> Prop.
Hypothesis Hdef : cmp_defined comparator valid.
Implicit Types (es : list (ptr A)) (i j k n sz index : Z).

(** More fuel does not change what a loop returns. *)
Lemma bubble_loop_fuel (fuel : nat) : forall (fuel' : nat) es j p r,
  bubble_loop comparator fuel es j p = Done r -> (fuel <= fuel')%nat ->
  bubble_loop comparator fuel' es j p = Done r.
Proof.
  induction fuel as [|fuel IH]; intros fuel' es j p r Hrun Hle;
    [discriminate|].
  destruct fuel' as [|fuel']; [lia|].
  cbn [bubble_loop] in *.
  destruct (j =? 0); [exact Hrun|].
  destruct (array_get es j) as [x|f]; [|discriminate].
  rewrite bind_Done in *.
  destruct (array_get es p) as [y|f]; [|discriminate].
  rewrite bind_Done in *.
  destruct (comparator x y) as [c|f]; [|discriminate].
  rewrite bind_Done in *.
  destruct (comparison_eqb c LESS_THAN); [|exact Hrun].
  rewrite !bind_Done in *.
  destruct (array_set es j y) as [es1|f]; [|discriminate].
  rewrite bind_Done in *.
  destruct (array_set es1 p x) as [es2|f]; [|discriminate].
  rewrite bind_Done in *.
  destruct (binary_heap_get_parent_index p) as [p'|f]; [|discriminate].
  rewrite bind_Done in *.
  destruct (assert ((p =? 0) || negb (p' =? -1))) as [u|f]; [|discriminate].
  rewrite bind_Done in *.
  apply (IH fuel'); [exact Hrun|lia].
Qed.

Lemma sift_loop_fuel (fuel : nat) : forall (fuel' : nat) sz st r,
  sift_loop comparator fuel sz st = Done r -> (fuel <= fuel')%nat ->
  sift_loop comparator fuel' sz st = Done r.
Proof.
  induction fuel as [|fuel IH]; intros fuel' sz st r Hrun Hle;
    [discriminate|].
  destruct fuel' as [|fuel']; [lia|].
  cbn [sift_loop] in *.
  destruct (sift_condition sz st); [|exact Hrun].
  destruct (sift_body comparator sz st) as [st'|f]; [|discriminate].
  rewrite bind_Done in *.
  apply (IH fuel'); [exact Hrun|lia].
Qed.

(** The sift-up from the node [j] ends within as many evaluations of its
    condition as the node is deep, and one. *)
Lemma bubble_loop_depth n fuel : forall es j,
  0 <= j < n -> n <= Z.of_nat (length es) -> n <= 2 ^ 31 ->
  (Z.to_nat (Z.log2 (j + 1)) < fuel)%nat ->
  (forall i, 0 <= i < n -> valid (elt es i)) ->
  exists es', bubble_loop comparator fuel es j ((j - 1) ÷ 2) = Done es'.
Proof.
  induction fuel as [|fuel IH]; intros es j Hj Hn Hmax Hfuel Hv; [lia|].
  cbn [bubble_loop].
  destruct (Z.eqb_spec j 0) as [->|Hj0]; [eauto|].
  replace ((j - 1) ÷ 2) with ((j - 1) / 2) by lia.
  pose proof (depth_parent j ltac:(lia)) as Hdepth.
  pose proof (Z.log2_nonneg ((j - 1) / 2 + 1)) as Hnonneg.
  remember ((j - 1) / 2) as p eqn:Hp.
  assert (Hpj : 0 <= p < j) by lia.
  rewrite !array_get_elt by lia. rewrite !bind_Done.
  destruct (Hdef (elt es j) (elt es p)) as [c Hc]; try (apply Hv; lia).
  rewrite Hc, bind_Done.
  destruct c; cbn [comparison_eqb]; [|eauto|eauto].
  rewrite (array_set_Done es j) by lia. rewrite bind_Done.
  rewrite array_set_Done by (rewrite length_insert; lia). rewrite bind_Done.
  rewrite parent_index_Done by (unfold INT_MAX; lia). rewrite bind_Done.
  replace ((p =? 0) || negb ((p - 1) ÷ 2 =? -1)) with true.
  2:{ symmetry. destruct (Z.eqb_spec p 0); [reflexivity|].
      destruct (Z.eqb_spec ((p - 1) ÷ 2) (-1)); [lia|reflexivity]. }
  cbn [assert]. rewrite bind_Done.
  fold (swapped es j p).
  apply (IH (swapped es j p) p); try lia.
  - rewrite length_swapped. exact Hn.
  - apply valid_swapped; auto; lia.
Qed.

(** The sift-down from the node [index] ends within as many evaluations
    of its condition as the tree is deep below the node, and two. *)
Lemma sift_loop_depth sz fuel : forall es index (b : bool),
  0 <= index <= sz -> sz <= Z.of_nat (length es) -> sz < MAX_ELEMS ->
  (forall i, 0 <= i < sz -> valid (elt es i)) ->
  (if b then Z.to_nat (Z.log2 sz - Z.log2 (index + 1)) + 2 <= fuel
   else 1 <= fuel)%nat ->
  exists st', sift_loop comparator fuel sz (sift_at es index b) = Done st'.
Proof.
  induction fuel as [|fuel IH]; intros es index b Hi Hn Hsz Hv Hfuel.
  { destruct b; lia. }
  cbn [sift_loop]. unfold sift_condition.
  cbn [sift_at st_left_index st_right_index st_smaller_than_children].
  unfold MAX_ELEMS in Hsz.
  destruct b; [|rewrite andb_false_r; eauto].
  rewrite andb_true_r.
  destruct (Z.lt_ge_cases (2 * index + 1) sz) as [Hl|Hl].
  - rewrite !to_uint_small by lia.
    destruct (Z.ltb_spec (2 * index + 1) sz) as [_|]; [|lia].
    cbn [orb].
    destruct (sift_body_correct comparator valid Hdef es index sz true)
      as (st1 & Hbody & Hcase); auto; try (unfold MAX_ELEMS; lia).
    rewrite Hbody, bind_Done.
    destruct Hcase as [[-> _]|(c & Hc & Hcsz & -> & _)].
    + apply (IH es index false); auto; try (unfold MAX_ELEMS; lia).
    + pose proof (depth_child index c ltac:(lia) Hc) as Hdepth.
      pose proof (Z.log2_le_mono (c + 1) sz ltac:(lia)) as Hdeep.
      apply (IH (swapped es index c) c true); try (unfold MAX_ELEMS; lia).
      * rewrite length_swapped. exact Hn.
      * apply valid_swapped; auto; lia.
  - rewrite !to_uint_small by lia.
    destruct (Z.ltb_spec (2 * index + 1) sz) as [|_]; [lia|].
    destruct (Z.ltb_spec (2 * index + 2) sz) as [|_]; [lia|].
    cbn [orb]. eauto.
Qed.

End LoopBounds.

Lemma heap_before_sift_up_shape : heap_shape is_node heap_before_sift_up.
Proof.
  split; cbn [heap_before_sift_up size capacity elems]; unfold MAX_ELEMS;
    try lia; [reflexivity|].
  intros i Hi.
  assert (Hcases : i = 0 \/ i = 1 \/ i = 2 \/ i = 3) by lia.
  destruct Hcases as [->|[->|[->| ->]]]; discriminate.
Qed.

Lemma heap_of_five_shape : heap_shape is_node heap_of_five.
Proof.
  split; cbn [heap_of_five size capacity elems]; unfold MAX_ELEMS;
    try lia; [reflexivity|].
  intros i Hi.
  assert (Hcases : i = 0 \/ i = 1 \/ i = 2 \/ i = 3 \/ i = 4) by lia.
  destruct Hcases as [->|[->|[->|[->| ->]]]]; discriminate.
Qed.

(** X21: the sift-up of [binary_heap_bubble_last_element] on a heap of
    [size] elements ends within [log2 size + 1] evaluations of the
    condition of its loop (the floor of the binary logarithm; each
    evaluation calls the comparator at most once, and each but the last is
    followed by one exchange): with that much fuel the loop returns, and
    the function returns the heap with the array the loop returned. *)
Theorem sift_up_is_logarithmic {A : Type}
    (comparator : ptr A -> ptr A -> outcome comparison_t)
    (valid : ptr A -> Prop) (h : binary_heap A) :
  cmp_defined comparator valid ->
  heap_shape valid h ->
  0 < size h ->
  exists es',
    bubble_loop comparator (S (Z.to_nat (Z.log2 (size h)))) (elems h)
      (size h - 1) ((size h - 1 - 1) ÷ 2) = Done es' /\
    binary_heap_bubble_last_element comparator h =
      Done {| elems := es'; size := size h; capacity := capacity h |}.
Proof.
  intros Hdef [Hs Hc Hl Hb Hv] Hpos. unfold MAX_ELEMS in *.
  destruct (bubble_loop_depth comparator valid Hdef (size h)
              (S (Z.to_nat (Z.log2 (size h)))) (elems h) (size h - 1))
    as [es' Hrun]; try lia.
  { replace (size h - 1 + 1) with (size h) by lia. lia. }
  { exact Hv. }
  exists es'. split; [exact Hrun|].
  unfold binary_heap_bubble_last_element.
  rewrite to_uint_small by lia. rewrite to_int_small by lia.
  rewrite parent_index_Done by (unfold INT_MAX; lia). rewrite bind_Done.
  replace ((size h - 1 =? 0) || negb ((size h - 1 - 1) ÷ 2 =? -1)) with true.
  2:{ symmetry. destruct (Z.eqb_spec (size h - 1) 0); [reflexivity|].
      destruct (Z.eqb_spec ((size h - 1 - 1) ÷ 2) (-1)); [lia|reflexivity]. }
  cbn [assert]. rewrite bind_Done.
  rewrite (bubble_loop_fuel comparator _ (S (Z.to_nat (size h))) _ _ _ _ Hrun).
  - reflexivity.
  - pose proof (Z.log2_lt_lin (size h) Hpos). lia.
Qed.

Lemma sift_up_is_logarithmic_witness :
  exists es',
    bubble_loop node_order (S (Z.to_nat (Z.log2 (size heap_before_sift_up))))
      (elems heap_before_sift_up)
      (size heap_before_sift_up - 1)
      ((size heap_before_sift_up - 1 - 1) ÷ 2) = Done es' /\
    binary_heap_bubble_last_element node_order heap_before_sift_up =
      Done {| elems := es'; size := size heap_before_sift_up;
              capacity := capacity heap_before_sift_up |}.
Proof.
  apply (sift_up_is_logarithmic node_order is_node heap_before_sift_up).
  - exact (twc_defined _ _ (toc_three_way _ _ node_order_total)).
  - exact heap_before_sift_up_shape.
  - reflexivity.
Defined.

(** X22: the sift-down of [binary_heap_pop_min] on a heap of [size]
    elements, of which [size - 1] remain, ends within
    [log2 (size - 1) + 2] evaluations of the condition of its loop (each
    followed by at most three calls of the comparator and one exchange):
    with that much fuel the loop returns from the array in which the last
    element was moved to the root, and the function returns the old root
    and the heap with the array the loop returned. *)
Theorem sift_down_is_logarithmic {A : Type}
    (comparator : ptr A -> ptr A -> outcome comparison_t)
    (valid : ptr A -> Prop) (h : binary_heap A) :
  cmp_defined comparator valid ->
  heap_shape valid h ->
  0 < size h ->
  elt (elems h) 0 <> NULL ->
  let sz := size h - 1 in
  let moved :=
    <[Z.to_nat sz := NULL]> (<[Z.to_nat 0 := elt (elems h) sz]> (elems h)) in
  exists st,
    sift_loop comparator (Z.to_nat (Z.log2 sz) + 2) sz (sift_at moved 0 true)
      = Done st /\
    binary_heap_pop_min comparator h =
      Done (elt (elems h) 0,
            {| elems := st_elems st; size := sz; capacity := capacity h |}).
Proof.
  intros Hdef Hsh Hpos Hnn sz moved. pose proof Hsh as [Hs Hc Hl Hb Hv].
  unfold MAX_ELEMS in *.
  assert (Hmoved : forall i, 0 <= i < sz ->
            elt moved i = if decide (i = 0) then elt (elems h) sz
                          else elt (elems h) i).
  { intros i Hi. subst moved. rewrite elt_insert_ne by lia.
    case_decide as Hd.
    - subst i. apply elt_insert_eq. lia.
    - apply elt_insert_ne; lia. }
  destruct (sift_loop_depth comparator valid Hdef sz
              (Z.to_nat (Z.log2 sz) + 2) moved 0 true)
    as [st Hrun]; try (unfold MAX_ELEMS; lia).
  { subst moved sz. rewrite !length_insert. lia. }
  { intros i Hi. rewrite Hmoved by lia. case_decide; apply Hv; subst sz; lia. }
  { change (Z.log2 (0 + 1)) with 0. lia. }
  exists st. split; [exact Hrun|].
  unfold binary_heap_pop_min.
  rewrite (binary_heap_min_root valid h Hsh Hpos), bind_Done.
  destruct (elt (elems h) 0) as [root|] eqn:Hroot;
    [|exfalso; apply Hnn; reflexivity].
  cbn [is_null].
  rewrite to_uint_small by lia.
  rewrite array_get_elt by lia. rewrite bind_Done.
  rewrite array_set_Done by lia. rewrite bind_Done.
  rewrite array_set_Done by (rewrite length_insert; lia). rewrite bind_Done.
  rewrite (left_child_index_Done 0) by (unfold MAX_ELEMS; lia).
  rewrite bind_Done.
  rewrite (right_child_index_Done 0) by (unfold MAX_ELEMS; lia).
  rewrite bind_Done.
  fold sz. fold moved.
  change {| st_elems := moved; st_index := 0; st_left_index := 2 * 0 + 1;
            st_right_index := 2 * 0 + 2; st_smaller_than_children := true |}
    with (sift_at moved 0 true).
  rewrite (sift_loop_fuel comparator _ (S (S (Z.to_nat sz))) _ _ _ Hrun).
  - rewrite bind_Done. reflexivity.
  - assert (Z.log2 sz <= sz).
    { destruct (Z.eq_dec sz 0) as [->|]; [reflexivity|].
      pose proof (Z.log2_lt_lin sz ltac:(subst sz; lia)). lia. }
    pose proof (Z.log2_nonneg sz). lia.
Qed.

Lemma sift_down_is_logarithmic_witness :
  let sz := size heap_of_five - 1 in
  let moved :=
    <[Z.to_nat sz := NULL]>
      (<[Z.to_nat 0 := elt (elems heap_of_five) sz]> (elems heap_of_five)) in
  exists st,
    sift_loop node_order (Z.to_nat (Z.log2 sz) + 2) sz (sift_at moved 0 true)
      = Done st /\
    binary_heap_pop_min node_order heap_of_five =
      Done (elt (elems heap_of_five) 0,
            {| elems := st_elems st; size := sz;
               capacity := capacity heap_of_five |}).
Proof.
  apply (sift_down_is_logarithmic node_order is_node heap_of_five).
  - exact (twc_defined _ _ (toc_three_way _ _ node_order_total)).
  - exact heap_of_five_shape.
  - reflexivity.
  - discriminate.
Defined.
